(** * preserveorder.js: merging ordered sequences of labels

    A shallow embedding of [updateRules], [getMasterRules] and
    [preserveOrder] of preserveorder.js, with the properties of the merge
    they compute.

    The program keeps its tables in plain JavaScript objects.  Three
    features of the language shape the embedding:

    - the own keys of an object are enumerated with the array indices
      first, in ascending numeric order, and the other strings after them
      in the order of their creation ([Object.keys] drives both the merge
      pass over the rules and the order in which the labels reach the
      sort);
    - reading a property of [undefined] raises a [TypeError]: a function
      that reads one returns an [option], [None] standing for the raise;
    - [Array.prototype.sort] belongs to the engine, not to the program; the
      development is parametric in it (class [ArraySort], with what
      ECMAScript promises of a sort in [ArraySortSpec]), and the two
      routines V8 has run on short arrays are its instances: the insertion
      sort of the versions the repository was written for, and the binary
      insertion of the TimSort that replaced it.

    The development has two parts.  The first describes the program on
    ordinary labels ([is_label]: the strings that are not names inherited
    from [Object.prototype]), where its tables are plain finite maps.  The
    second, [Realm], describes it on all strings, with the reads and
    writes that reach [Object.prototype] and its functions, up to the
    point where a run would change those objects.  On ordinary labels the
    two agree ([getMasterRules_agree], [preserveOrder_agree]). *)

From Stdlib Require Import String Ascii List ZArith NArith Lia Bool Arith.
From Stdlib Require Import Permutation Sorted Relations.
Import ListNotations.

Local Open Scope string_scope.
Local Open Scope list_scope.
Local Open Scope nat_scope.

(* ================================================================== *)
(** ** Property keys *)

Module Key.

(** The value of a decimal digit. *)
Definition digit (c : ascii) : option N :=
  let n := N_of_ascii c in
  if ((48 <=? n) && (n <=? 57))%N then Some (n - 48)%N else None.

Fixpoint decimal (s : string) (acc : N) : option N :=
  match s with
  | EmptyString => Some acc
  | String c s' =>
      match digit c with
      | Some d => decimal s' (10 * acc + d)%N
      | None => None
      end
  end.

(** An array index is the canonical decimal spelling of an integer
    between 0 and 2^32 - 2: no sign, no leading zero. *)
Definition array_index (s : string) : option N :=
  match s with
  | EmptyString => None
  | String "0" EmptyString => Some 0%N
  | String "0" _ => None
  | _ =>
      match decimal s 0 with
      | Some n => if (n <=? 4294967294)%N then Some n else None
      | None => None
      end
  end.

(** The names every object inherits from [Object.prototype].  Reading
    one of them on a table that has no such own key does not give
    [undefined], and writing [__proto__] creates no own key: on these
    names the tables of the program are not plain finite maps. *)
Definition inherited_names : list string :=
  [ "constructor"; "__defineGetter__"; "__defineSetter__";
    "hasOwnProperty"; "__lookupGetter__"; "__lookupSetter__";
    "isPrototypeOf"; "propertyIsEnumerable"; "toString"; "valueOf";
    "__proto__"; "toLocaleString" ].

Definition inherited (s : string) : bool :=
  existsb (String.eqb s) inherited_names.

End Key.

(* ================================================================== *)
(** ** Plain objects used as tables *)

Module Obj.
Section Table.

Variable V : Type.

(** The own properties, in the order [Object.keys] lists them. *)
Definition t := list (string * V).

Definition empty : t := [].

(** [o[k]], [None] for [undefined]. *)
Fixpoint get (o : t) (k : string) : option V :=
  match o with
  | [] => None
  | (k', v) :: o' => if String.eqb k k' then Some v else get o' k
  end.

Definition has (o : t) (k : string) : bool :=
  match get o k with Some _ => true | None => false end.

(** Assignment to an existing key keeps the key where it is. *)
Fixpoint replace (o : t) (k : string) (v : V) : t :=
  match o with
  | [] => []
  | (k', v') :: o' =>
      if String.eqb k k' then (k, v) :: o' else (k', v') :: replace o' k v
  end.

(** A new array index goes among the indices, in numeric order. *)
Fixpoint place (o : t) (n : N) (k : string) (v : V) : t :=
  match o with
  | [] => [(k, v)]
  | (k', v') :: o' =>
      match Key.array_index k' with
      | Some m =>
          if (m <? n)%N then (k', v') :: place o' n k v
          else (k, v) :: o
      | None => (k, v) :: o
      end
  end.

(** [o[k] = v] *)
Definition set (o : t) (k : string) (v : V) : t :=
  if has o k then replace o k v
  else
    match Key.array_index k with
    | Some n => place o n k v
    | None => o ++ [(k, v)]
    end.

(** [Object.keys(o)] *)
Definition keys (o : t) : list string := map fst o.

End Table.
End Obj.

Arguments Obj.empty {V}.
Arguments Obj.get {V} o k.
Arguments Obj.has {V} o k.
Arguments Obj.replace {V} o k v.
Arguments Obj.place {V} o n k v.
Arguments Obj.set {V} o k v.
Arguments Obj.keys {V} o.

(** [_.merge(dst, src)] on tables whose values are numbers: every own
    property of [src] is assigned to [dst], in the order of [src]. *)
Definition merge (dst src : Obj.t Z) : Obj.t Z :=
  fold_left (fun d kv => Obj.set d (fst kv) (snd kv)) src dst.

(* ================================================================== *)
(** ** Control: raises and loops *)

Definition bind {A B : Type} (m : option A) (f : A -> option B) : option B :=
  match m with
  | Some a => f a
  | None => None
  end.

Notation "x <- m ;; k" := (bind m (fun x => k))
  (at level 61, m at next level, right associativity).

(** [xs.forEach(body)], and a [for] loop over the elements [xs] of its
    range, threading the state the body mutates. *)
Fixpoint forEach {A S : Type} (xs : list A) (body : A -> S -> option S)
    (s : S) : option S :=
  match xs with
  | [] => Some s
  | x :: xs' => s' <- body x s ;; forEach xs' body s'
  end.

(** The index range of [for (i = from; i < to; i++)]. *)
Definition range (from to : nat) : list nat := seq from (to - from).

(* ================================================================== *)
(** ** The program *)

(** The three functions as they run on ordinary labels, where every read
    and every write of a table reaches an own property or none.  The
    section after this one follows them among the names an object
    inherits. *)

(** The rules table: [rules[a][b] = 1] says that [a] comes before [b]. *)
Definition rules_t := Obj.t (Obj.t Z).

(** [arr[i]]; an index out of range gives [undefined], which as a property
    key is the string of that name. *)
Definition at_index (arr : list string) (i : nat) : string :=
  nth i arr "undefined".

Definition updateRules (arr : list string) (rules : rules_t) : option rules_t :=
  if List.length arr <=? 1 then Some rules
  else
    let l := List.length arr in
    forEach (range 0 (l - 1)) (fun i rules =>
      let curr := at_index arr i in
      let rules :=
        if Obj.has rules curr then rules else Obj.set rules curr Obj.empty in
      forEach (range (i + 1) l) (fun j rules =>
        let temp := at_index arr j in
        r <- Obj.get rules curr ;;
        Some (Obj.set rules curr (Obj.set r temp 1%Z))) rules) rules.

(** The callback of the inner [forEach] of [getMasterRules]:
    [rules[rule] = _.merge(rules[rule], rules[key] || {})] *)
Definition merge_step (rule key : string) (rules : rules_t) : option rules_t :=
  dst <- Obj.get rules rule ;;
  let src := match Obj.get rules key with Some s => s | None => Obj.empty end in
  Some (Obj.set rules rule (merge dst src)).

(** The callback of the outer one: the keys of [rules[rule]] are listed
    once, before the first merge. *)
Definition merge_rule (rule : string) (rules : rules_t) : option rules_t :=
  r <- Obj.get rules rule ;;
  forEach (Obj.keys r) (merge_step rule) rules.

Definition getMasterRules (input : list (list string)) : option rules_t :=
  rules <- forEach input updateRules Obj.empty ;;
  forEach (Obj.keys rules) merge_rule rules.

(** [rules[a] && rules[a][b]], as a condition. *)
Definition recorded (rules : rules_t) (a b : string) : bool :=
  match Obj.get rules a with
  | Some r =>
      match Obj.get r b with
      | Some v => negb (v =? 0)%Z
      | None => false
      end
  | None => false
  end.

Definition sortByRules (rules : rules_t) (a b : string) : Z :=
  if recorded rules a b then (-1)%Z
  else if recorded rules b a then 1%Z
  else 0%Z.

(** The unique elements: [uniq[elem] = 1] for every element of every
    array. *)
Definition collect (input : list (list string)) : Obj.t Z :=
  fold_left (fun uniq arr =>
    fold_left (fun uniq elem => Obj.set uniq elem 1%Z) arr uniq) input Obj.empty.

(* ------------------------------------------------------------------ *)
(** *** The engine's sort *)

(** [arr.sort(comparefn)] is the engine's.  ECMAScript promises a
    permutation of the array, and a sorted one when [comparefn] is a
    consistent comparison on the elements; on other comparators the order
    is left to the engine. *)
Class ArraySort : Type :=
  array_sort : (string -> string -> Z) -> list string -> list string.

(** A consistent comparison function on the elements of [l], as ECMAScript
    defines it. *)
Record consistent (cmp : string -> string -> Z) (l : list string) : Prop := {
  cmp_refl : forall a, In a l -> cmp a a = 0%Z;
  cmp_eq_sym : forall a b, In a l -> In b l -> cmp a b = 0%Z -> cmp b a = 0%Z;
  cmp_eq_trans : forall a b c, In a l -> In b l -> In c l ->
    cmp a b = 0%Z -> cmp b c = 0%Z -> cmp a c = 0%Z;
  cmp_lt_trans : forall a b c, In a l -> In b l -> In c l ->
    (cmp a b < 0)%Z -> (cmp b c < 0)%Z -> (cmp a c < 0)%Z;
  cmp_gt_trans : forall a b c, In a l -> In b l -> In c l ->
    (cmp a b > 0)%Z -> (cmp b c > 0)%Z -> (cmp a c > 0)%Z;
  cmp_lt_gt : forall a b, In a l -> In b l ->
    ((cmp a b < 0)%Z <-> (cmp b a > 0)%Z)
}.

(** What the program may assume of the engine. *)
Class ArraySortSpec (E : ArraySort) : Prop := {
  array_sort_perm : forall cmp l, Permutation l (array_sort cmp l);
  array_sort_sorted : forall cmp l, consistent cmp l ->
    StronglySorted (fun a b => (cmp a b <= 0)%Z) (array_sort cmp l)
}.

(** V8's [InsertionSort], the routine [Array.prototype.sort] ran on arrays
    of at most ten elements up to V8 6.9: each element in turn moves left
    past the elements that compare greater than it.  [insert_left] walks
    the sorted part from its right end ([rev_done] is that part reversed)
    and returns it with [element] in place, still reversed. *)
Fixpoint insert_left (cmp : string -> string -> Z) (element : string)
    (rev_done : list string) : list string :=
  match rev_done with
  | [] => [element]
  | tmp :: rest =>
      if (cmp tmp element >? 0)%Z then tmp :: insert_left cmp element rest
      else element :: rev_done
  end.

(** The sorted part, read from its right end. *)
Definition descending (cmp : string -> string -> Z) : list string -> Prop :=
  StronglySorted (fun x y => (cmp y x <= 0)%Z).

Definition InsertionSort (cmp : string -> string -> Z) (a : list string)
    : list string :=
  rev (fold_left (fun rev_done element => insert_left cmp element rev_done)
         a []).

(** The short-array path of V8's TimSort (V8 7.0 and later), taken by
    arrays of fewer than 64 elements: the longest run at the start of the
    array is found (and reversed when it descends strictly), then every
    later element is placed in the sorted part by binary search. *)

(** [run_length cmp desc prev rest]: how many elements of [rest] continue
    the run that ends with [prev]. *)
Fixpoint run_length (cmp : string -> string -> Z) (desc : bool)
    (prev : string) (rest : list string) : nat :=
  match rest with
  | [] => 0
  | cur :: rest' =>
      let order := cmp cur prev in
      if (if desc then (order <? 0)%Z else (order >=? 0)%Z)
      then S (run_length cmp desc cur rest')
      else 0
  end.

(** The array with its initial run made ascending, and the length of the
    run. *)
Definition CountAndMakeRun (cmp : string -> string -> Z) (a : list string)
    : list string * nat :=
  match a with
  | x0 :: x1 :: rest =>
      let desc := (cmp x1 x0 <? 0)%Z in
      let n := 2 + run_length cmp desc x1 rest in
      if desc then (rev (firstn n a) ++ skipn n a, n) else (a, n)
  | _ => (a, List.length a)
  end.

(** The binary search of [BinaryInsertionSort]: the insertion point of
    [pivot] between [left] and [right] in [a]. *)
Fixpoint insertion_point (fuel : nat) (cmp : string -> string -> Z)
    (pivot : string) (a : list string) (left right : nat) : nat :=
  match fuel with
  | 0 => left
  | S fuel' =>
      if left <? right then
        let mid := left + (right - left) / 2 in
        if (cmp pivot (at_index a mid) <? 0)%Z
        then insertion_point fuel' cmp pivot a left mid
        else insertion_point fuel' cmp pivot a (mid + 1) right
      else left
  end.

(** One step of [BinaryInsertionSort]: the element at [start] moves to its
    insertion point in [a[0..start)]. *)
Definition binary_insert (cmp : string -> string -> Z) (a : list string)
    (start : nat) : list string :=
  let pivot := at_index a start in
  let left := insertion_point start cmp pivot a 0 start in
  firstn left a ++ pivot :: firstn (start - left) (skipn left a)
    ++ skipn (start + 1) a.

Definition TimSortShort (cmp : string -> string -> Z) (a : list string)
    : list string :=
  let '(a1, n) := CountAndMakeRun cmp a in
  fold_left (binary_insert cmp) (range n (List.length a)) a1.

Definition v8_insertion : ArraySort := InsertionSort.
Definition v8_timsort : ArraySort := TimSortShort.

(** A sort asks its comparator about the elements of the array only. *)
Class ArraySortLocal (E : ArraySort) : Prop :=
  array_sort_local : forall cmp cmp' l,
    (forall a b, In a l -> In b l -> cmp a b = cmp' a b) ->
    array_sort cmp l = array_sort cmp' l.

(* ------------------------------------------------------------------ *)

Definition preserveOrder {E : ArraySort} (input : list (list string))
    : option (list string) :=
  rules <- getMasterRules input ;;
  let uniq := collect input in
  let sorted := Obj.keys uniq in
  Some (array_sort (sortByRules rules) sorted).

(* ================================================================== *)
(** ** The program among the names of [Object.prototype] *)

(** The tables of the program are objects created by [{}].  On most
    strings they act as plain tables: a read finds the own property or
    [undefined], a write makes or changes the own property, and this is
    what the functions above describe.  On the twelve names of
    [Key.inherited_names] they do not.  A read of such a name on a table
    that does not hold it finds a function of [Object.prototype], or the
    prototype itself for [__proto__]; an assignment of a number to
    [__proto__] calls the inherited setter, which ignores it, and makes no
    own property; and where such a name is [curr], [rules[curr]] is an
    object of the engine, which the program goes on to write to.

    [Realm] describes the program on all strings, as far as the objects of
    the engine are known.  A run ends with a value, with a [TypeError], or
    at a step that is not described: an assignment that would change
    [Object.prototype] or one of its functions, a read of a property of
    such a function other than [__proto__] and [length], lodash merging
    one of these objects in. *)

Inductive run (A : Type) : Type :=
| Returns (a : A)
| Throws
| Unmodelled.

Arguments Returns {A} a.
Arguments Throws {A}.
Arguments Unmodelled {A}.

(** A run of the functions above ([None] is the [TypeError]). *)
Definition lift {A : Type} (m : option A) : run A :=
  match m with
  | Some a => Returns a
  | None => Throws
  end.

Module Realm.

Definition bind {A B : Type} (m : run A) (f : A -> run B) : run B :=
  match m with
  | Returns a => f a
  | Throws => Throws
  | Unmodelled => Unmodelled
  end.

Fixpoint forEach {A S : Type} (xs : list A) (body : A -> S -> run S)
    (s : S) : run S :=
  match xs with
  | [] => Returns s
  | x :: xs' => bind (body x s) (forEach xs' body)
  end.

(** What a property read can give. *)
Inductive value : Type :=
| VUndefined
| VNull
| VNumber (n : Z)
| VTable (t : Obj.t Z)          (* one of the objects [rules[a]] *)
| VObjectPrototype              (* [Object.prototype] *)
| VFunction (name : string)     (* the function [Object.prototype[name]] *)
| VFunctionPrototype.           (* [Function.prototype] *)

Definition truthy (v : value) : bool :=
  match v with
  | VUndefined | VNull => false
  | VNumber n => negb (n =? 0)%Z
  | VTable _ | VObjectPrototype | VFunction _ | VFunctionPrototype => true
  end.

(** The own properties of [Object.prototype] are the accessor [__proto__]
    and eleven functions. *)
Definition is_function (k : string) : bool :=
  Key.inherited k && negb (k =? "__proto__")%string.

(** The [length] of each of them, the number of its parameters:
    [toString], [valueOf] and [toLocaleString] take none. *)
Definition function_length (name : string) : Z :=
  if existsb (String.eqb name) ["__defineGetter__"; "__defineSetter__"]
  then 2%Z
  else if existsb (String.eqb name) ["toString"; "valueOf"; "toLocaleString"]
  then 0%Z
  else 1%Z.

(** [Object.prototype[k]]; the prototype of [Object.prototype] is
    [null]. *)
Definition prototype_get (k : string) : value :=
  if (k =? "__proto__")%string then VNull
  else if is_function k then VFunction k
  else VUndefined.

(** [o[k]] where [o] was created by [{}] and has no own property [k]. *)
Definition inherited (k : string) : value :=
  if (k =? "__proto__")%string then VObjectPrototype else prototype_get k.

(** [rules[k]] *)
Definition read_rules (rules : rules_t) (k : string) : value :=
  match Obj.get rules k with
  | Some r => VTable r
  | None => inherited k
  end.

(** [v[k]].  The prototype of a function is [Function.prototype]. *)
Definition read (v : value) (k : string) : run value :=
  match v with
  | VUndefined | VNull => Throws
  | VTable t =>
      match Obj.get t k with
      | Some n => Returns (VNumber n)
      | None => Returns (inherited k)
      end
  | VObjectPrototype => Returns (prototype_get k)
  | VFunction f =>
      if (k =? "__proto__")%string then Returns VFunctionPrototype
      else if (k =? "length")%string then Returns (VNumber (function_length f))
      else Unmodelled
  | VNumber _ | VFunctionPrototype => Unmodelled
  end.

(** [o[k] = n] where [o] was created by [{}]: the setter of [__proto__]
    ignores a number, and any other name becomes an own property. *)
Definition assign (o : Obj.t Z) (k : string) (n : Z) : Obj.t Z :=
  if Obj.has o k then Obj.set o k n
  else if (k =? "__proto__")%string then o
  else Obj.set o k n.

(** [rules[curr][temp] = 1].  On [Object.prototype] and on a function the
    setter of [__proto__] ignores the number as well, and the [length] of
    a function is not writable: outside strict mode the assignment does
    nothing.  Any other assignment to them changes an object that every
    object inherits from. *)
Definition mark (curr temp : string) (rules : rules_t) : run rules_t :=
  match read_rules rules curr with
  | VUndefined | VNull => Throws
  | VTable r => Returns (Obj.set rules curr (assign r temp 1%Z))
  | VObjectPrototype =>
      if (temp =? "__proto__")%string then Returns rules else Unmodelled
  | VFunction _ =>
      if (temp =? "__proto__")%string || (temp =? "length")%string
      then Returns rules else Unmodelled
  | VNumber _ | VFunctionPrototype => Unmodelled
  end.

Definition updateRules (arr : list string) (rules : rules_t) : run rules_t :=
  if List.length arr <=? 1 then Returns rules
  else
    let l := List.length arr in
    forEach (range 0 (l - 1)) (fun i rules =>
      let curr := at_index arr i in
      let rules :=
        if truthy (read_rules rules curr) then rules
        else Obj.set rules curr Obj.empty in
      forEach (range (i + 1) l) (fun j rules =>
        let temp := at_index arr j in
        mark curr temp rules) rules) rules.

(** [rules[rule] = _.merge(rules[rule], rules[key] || {})]; what lodash
    makes of a function or of [Object.prototype] as a source is not
    described. *)
Definition merge_step (rule key : string) (rules : rules_t) : run rules_t :=
  match read_rules rules rule with
  | VTable dst =>
      match read_rules rules key with
      | VTable src => Returns (Obj.set rules rule (merge dst src))
      | VUndefined => Returns (Obj.set rules rule (merge dst Obj.empty))
      | _ => Unmodelled
      end
  | _ => Unmodelled
  end.

Definition merge_rule (rule : string) (rules : rules_t) : run rules_t :=
  match read_rules rules rule with
  | VTable r => forEach (Obj.keys r) (merge_step rule) rules
  | VUndefined | VNull => Throws
  | _ => Unmodelled
  end.

Definition getMasterRules (input : list (list string)) : run rules_t :=
  bind (forEach input updateRules Obj.empty) (fun rules =>
  forEach (Obj.keys rules) merge_rule rules).

(** [rules[a] && rules[a][b]], as a condition. *)
Definition recorded (rules : rules_t) (a b : string) : run bool :=
  let ra := read_rules rules a in
  if truthy ra then bind (read ra b) (fun v => Returns (truthy v))
  else Returns false.

Definition sortByRules (rules : rules_t) (a b : string) : run Z :=
  bind (recorded rules a b) (fun ab =>
  if ab then Returns (-1)%Z
  else bind (recorded rules b a) (fun ba =>
  if ba then Returns 1%Z else Returns 0%Z)).

(** [uniq[elem] = 1] for every element of every array. *)
Definition collect (input : list (list string)) : Obj.t Z :=
  fold_left (fun uniq arr =>
    fold_left (fun uniq elem => assign uniq elem 1%Z) arr uniq) input Obj.empty.

(** Every comparison the engine can ask for is a described one. *)
Definition comparable (rules : rules_t) (l : list string) : bool :=
  forallb (fun a =>
    forallb (fun b =>
      match sortByRules rules a b with
      | Returns _ => true
      | _ => false
      end) l) l.

(** The comparator as the engine calls it, on an array of [comparable]
    elements. *)
Definition comparefn (rules : rules_t) (a b : string) : Z :=
  match sortByRules rules a b with
  | Returns z => z
  | _ => 0%Z
  end.

Definition preserveOrder {E : ArraySort} (input : list (list string))
    : run (list string) :=
  bind (getMasterRules input) (fun rules =>
  let uniq := collect input in
  let sorted := Obj.keys uniq in
  if comparable rules sorted
  then Returns (array_sort (comparefn rules) sorted)
  else Unmodelled).

End Realm.

(* ================================================================== *)
(** ** The vocabulary of the specification *)

(** An ordinary label: a string that is not a name inherited from
    [Object.prototype]. *)
Definition is_label (s : string) : Prop := Key.inherited s = false.

Definition is_input (input : list (list string)) : Prop :=
  Forall (Forall is_label) input.

(** [a] stands at a position before a position of [b] in [s]. *)
Definition precedes_in (s : list string) (a b : string) : Prop :=
  exists i j, i < j /\ nth_error s i = Some a /\ nth_error s j = Some b.

(** The direct pairwise rules of an input. *)
Definition direct (input : list (list string)) (a b : string) : Prop :=
  exists s, In s input /\ precedes_in s a b.

(** No label precedes itself through a chain of direct rules. *)
Definition acyclic (input : list (list string)) : Prop :=
  forall a, ~ clos_trans string (direct input) a a.

Record valid_input (input : list (list string)) : Prop := {
  valid_labels : is_input input;
  valid_nonempty : input <> [];
  valid_sequences : Forall (fun s => s <> [] /\ NoDup s) input;
  valid_consistent : forall a b, direct input a b -> ~ direct input b a;
  valid_acyclic : acyclic input
}.

(** A valid input in the words of the specification, whatever strings its
    labels are: a non-empty list of non-empty sequences without
    duplicates, whose direct rules neither contradict each other nor form
    a cycle.  A [valid_input] is a [well_formed] input of ordinary
    labels. *)
Record well_formed (input : list (list string)) : Prop := {
  formed_nonempty : input <> [];
  formed_sequences : Forall (fun s => s <> [] /\ NoDup s) input;
  formed_consistent : forall a b, direct input a b -> ~ direct input b a;
  formed_acyclic : acyclic input
}.

(** The relation a rules table records, as the comparator reads it. *)
Definition rel (rules : rules_t) (a b : string) : Prop :=
  recorded rules a b = true.

(** The labels of an input. *)
Definition labels (input : list (list string)) : list string := concat input.

(** Every two distinct labels stand together in some sequence. *)
Definition pairwise_complete (input : list (list string)) : Prop :=
  forall a b, In a (labels input) -> In b (labels input) -> a <> b ->
    direct input a b \/ direct input b a.

(** The table orders every two distinct elements of [l], one way or the
    other. *)
Definition relates_all (rules : rules_t) (l : list string) : Prop :=
  forall a b, In a l -> In b l -> a <> b -> rel rules a b \/ rel rules b a.


(** *** Deciding validity *)

Definition index_of (x : string) (l : list string) : nat :=
  (fix go (l : list string) (n : nat) : nat :=
     match l with
     | [] => n
     | y :: l' => if String.eqb x y then n else go l' (S n)
     end) l 0.

(** The pairs of [precedes_in s], listed. *)
Fixpoint pairs_of (s : list string) : list (string * string) :=
  match s with
  | [] => []
  | a :: s' => map (fun b => (a, b)) s' ++ pairs_of s'
  end.

Definition direct_pairs (input : list (list string)) : list (string * string) :=
  flat_map pairs_of input.

Fixpoint nodupb (s : list string) : bool :=
  match s with
  | [] => true
  | a :: s' => negb (existsb (String.eqb a) s') && nodupb s'
  end.

(** [order] lists the labels so that every direct rule goes forward. *)
Definition valid_inputb (order : list string) (input : list (list string))
    : bool :=
  forallb (forallb (fun s => negb (Key.inherited s))) input
  && negb (Nat.eqb (List.length input) 0)
  && forallb (fun s => negb (Nat.eqb (List.length s) 0) && nodupb s) input
  && forallb (fun p => index_of (fst p) order <? index_of (snd p) order)
             (direct_pairs input).





(** Every mark the program writes is the number 1. *)
Definition ones (rules : rules_t) : Prop :=
  forall a r, In (a, r) rules -> forall b v, In (b, v) r -> v = 1%Z.

(** Every key of every table of the rules is an ordinary label. *)
Definition plain (rules : rules_t) : Prop :=
  forall a r, Obj.get rules a = Some r ->
  forall b, In b (Obj.keys r) -> is_label b.

(* ================================================================== *)
(** ** The vocabulary of the further properties *)

(** [rules[a][b]] holds the number 1. *)
Definition marked (rules : rules_t) (a b : string) : Prop :=
  exists r, Obj.get rules a = Some r /\ Obj.get r b = Some 1%Z.





(** [x] may stand before [y]: the comparator does not put [y] first. *)
Definition not_after (cmp : string -> string -> Z) (x y : string) : Prop :=
  (cmp x y <= 0)%Z.

(** The arrays V8 sorts with each of the two routines: [InsertionSort] ran
    on at most ten elements (V8 up to 6.9 sorts longer arrays with a
    quicksort), and the TimSort of V8 7.0 and later places by binary
    insertion alone when the array has fewer than 64. *)
Definition insertion_range (l : list string) : Prop := List.length l <= 10.
Definition timsort_range (l : list string) : Prop := List.length l < 64.

(* ================================================================== *)
(** ** Inputs *)

(** The inputs of the tests of the repository. *)
Definition input1 : list (list string) := [["a";"b"];["b";"c"]].

Definition input3 : list (list string) :=
  [["a";"b"];["b";"c"];["b";"d"];["c";"d"]].

Definition input4 : list (list string) :=
  [["1";"9"];["3";"6"];["1";"3"];["6";"9"]].

Definition input5 : list (list string) :=
  [ ["a";        "c";"d";"e";"f";"g"];
    ["a";"b";        "d";"e";"f";"g"];
    ["a";"b";"c";        "e";"f";"g"];
    ["a";"b";"c";"d";        "f";"g"];
    ["a";"b";"c";"d";"e";        "g"] ].

Definition input6 : list (list string) :=
  [["a";"b"];["b";"c"];["c";"d"];["d";"e"]].

(** [input7]: a chain of four links. *)
Definition input7 : list (list string) :=
  [["e";"d"];["d";"c"];["c";"b"];["b";"a"]].

(** Two of the six arrangements of the test input [input2]. *)
Definition input2_a : list (list string) := [["b";"c"];["a";"c"];["a";"b"]].
Definition input2_d : list (list string) := [["a";"b"];["b";"c"];["a";"c"]].


(** No rule relates b or d to c. *)
Definition unrelated_bridge : list (list string) :=
  [["a";"b"];["a";"c"];["d";"b"]].

(** The four sequences of [input7] with the first one moved to the end:
    the same links of the chain e, d, c, b, a. *)
Definition chain_rotated : list (list string) :=
  [["d";"c"];["c";"b"];["b";"a"];["e";"d"]].



(* ================================================================== *)
(** ** Facts about tables *)

Module ObjFacts.
Section Table.

Variable V : Type.
Implicit Types (o : Obj.t V) (k : string) (v : V).

Lemma has_get o k : Obj.has o k = true <-> exists v, Obj.get o k = Some v.
Proof.
  unfold Obj.has. destruct (Obj.get o k); split; intros H; eauto.
  - discriminate.
  - destruct H; discriminate.
Qed.

Lemma has_false o k : Obj.has o k = false <-> Obj.get o k = None.
Proof.
  unfold Obj.has. destruct (Obj.get o k); split; intros H;
    congruence.
Qed.

Lemma get_in_keys o k v : Obj.get o k = Some v -> In k (Obj.keys o).
Proof.
  induction o as [|[k' v'] o IH]; simpl; [discriminate|].
  destruct (String.eqb_spec k k'); auto.
Qed.

Lemma in_keys_get o k : In k (Obj.keys o) -> exists v, Obj.get o k = Some v.
Proof.
  induction o as [|[k' v'] o IH]; simpl; [tauto|].
  intros [->|H].
  - rewrite String.eqb_refl; eauto.
  - destruct (String.eqb k k'); eauto.
Qed.

Lemma get_none_keys o k : Obj.get o k = None <-> ~ In k (Obj.keys o).
Proof.
  split.
  - intros H Hin. apply in_keys_get in Hin as [v Hv]. congruence.
  - intros H. destruct (Obj.get o k) eqn:E; [|reflexivity].
    apply get_in_keys in E. tauto.
Qed.

(** *** Reading after writing *)

Lemma get_replace_same o k v :
  Obj.has o k = true -> Obj.get (Obj.replace o k v) k = Some v.
Proof.
  unfold Obj.has.
  induction o as [|[k' v'] o IH]; simpl; [discriminate|].
  destruct (String.eqb k k') eqn:E; simpl.
  - now rewrite String.eqb_refl.
  - rewrite E. exact IH.
Qed.

Lemma get_replace_other o k v k' :
  k' <> k -> Obj.get (Obj.replace o k v) k' = Obj.get o k'.
Proof.
  intros Hne.
  induction o as [|[k0 v0] o IH]; simpl; [reflexivity|].
  destruct (String.eqb_spec k k0) as [->|Hk]; simpl.
  - destruct (String.eqb_spec k' k0); [contradiction|reflexivity].
  - now rewrite IH.
Qed.

Lemma get_place_same o n k v :
  Obj.get o k = None -> Obj.get (Obj.place o n k v) k = Some v.
Proof.
  induction o as [|[k0 v0] o IH]; simpl.
  - now rewrite String.eqb_refl.
  - destruct (String.eqb k k0) eqn:E; [discriminate|]. intros Hn.
    destruct (Key.array_index k0) as [m|]; [destruct (m <? n)%N|]; simpl;
      rewrite ?E, ?String.eqb_refl; auto.
Qed.

Lemma get_place_other o n k v k' :
  k' <> k -> Obj.get (Obj.place o n k v) k' = Obj.get o k'.
Proof.
  intros Hne. apply String.eqb_neq in Hne.
  induction o as [|[k0 v0] o IH]; simpl.
  - now rewrite Hne.
  - destruct (Key.array_index k0) as [m|]; [destruct (m <? n)%N|]; simpl;
      rewrite ?Hne, ?IH; reflexivity.
Qed.

Lemma get_app o o' k :
  Obj.get (o ++ o') k =
  match Obj.get o k with Some v => Some v | None => Obj.get o' k end.
Proof.
  induction o as [|[k0 v0] o IH]; simpl; [reflexivity|].
  destruct (String.eqb k k0); auto.
Qed.

Lemma get_set_same o k v : Obj.get (Obj.set o k v) k = Some v.
Proof.
  unfold Obj.set. destruct (Obj.has o k) eqn:E.
  - now apply get_replace_same.
  - apply has_false in E.
    destruct (Key.array_index k).
    + now apply get_place_same.
    + rewrite get_app, E. simpl. now rewrite String.eqb_refl.
Qed.

Lemma get_set_other o k v k' :
  k' <> k -> Obj.get (Obj.set o k v) k' = Obj.get o k'.
Proof.
  intros Hne. unfold Obj.set. destruct (Obj.has o k).
  - now apply get_replace_other.
  - destruct (Key.array_index k).
    + now apply get_place_other.
    + rewrite get_app. simpl.
      apply String.eqb_neq in Hne. rewrite Hne.
      now destruct (Obj.get o k').
Qed.

Lemma get_set o k v k' :
  Obj.get (Obj.set o k v) k' =
  if String.eqb k' k then Some v else Obj.get o k'.
Proof.
  destruct (String.eqb_spec k' k) as [->|Hne].
  - apply get_set_same.
  - now apply get_set_other.
Qed.

(** *** The keys after writing *)

Lemma keys_replace o k v : Obj.keys (Obj.replace o k v) = Obj.keys o.
Proof.
  induction o as [|[k0 v0] o IH]; simpl; [reflexivity|].
  destruct (String.eqb_spec k k0) as [->|Hk]; simpl; [reflexivity|].
  now rewrite IH.
Qed.

Lemma keys_place o n k v :
  Permutation (k :: Obj.keys o) (Obj.keys (Obj.place o n k v)).
Proof.
  induction o as [|[k0 v0] o IH]; simpl; [reflexivity|].
  destruct (Key.array_index k0) as [m|]; [destruct (m <? n)%N|]; simpl;
    try reflexivity.
  rewrite perm_swap. now apply perm_skip.
Qed.

Lemma keys_set_old o k v :
  Obj.has o k = true -> Obj.keys (Obj.set o k v) = Obj.keys o.
Proof. intros H. unfold Obj.set. rewrite H. apply keys_replace. Qed.

Lemma keys_set_new o k v :
  Obj.has o k = false ->
  Permutation (k :: Obj.keys o) (Obj.keys (Obj.set o k v)).
Proof.
  intros H. unfold Obj.set. rewrite H.
  destruct (Key.array_index k).
  - apply keys_place.
  - unfold Obj.keys. rewrite map_app. simpl.
    apply Permutation_cons_append.
Qed.

Lemma in_keys_set o k v k' :
  In k' (Obj.keys (Obj.set o k v)) <-> k' = k \/ In k' (Obj.keys o).
Proof.
  destruct (Obj.has o k) eqn:E.
  - rewrite keys_set_old by assumption.
    split; [tauto|]. intros [->|H]; [|assumption].
    apply has_get in E as [x Hx]. eapply get_in_keys; eauto.
  - pose proof (keys_set_new o k v E) as P. split.
    + intros H. apply Permutation_sym in P.
      apply (Permutation_in _ P) in H. simpl in H.
      destruct H; [left; congruence | tauto].
    + intros H. apply (Permutation_in _ P). simpl.
      destruct H; [left; congruence | tauto].
Qed.

Lemma NoDup_keys_set o k v :
  NoDup (Obj.keys o) -> NoDup (Obj.keys (Obj.set o k v)).
Proof.
  intros H. destruct (Obj.has o k) eqn:E.
  - now rewrite keys_set_old.
  - eapply Permutation_NoDup; [apply keys_set_new; eassumption|].
    constructor; [|assumption].
    apply get_none_keys. now apply has_false.
Qed.

End Table.
End ObjFacts.

Module ObjElems.
Section Table.

Variable V : Type.
Implicit Types (o : Obj.t V) (k : string) (v : V).

Lemma get_in o k v : Obj.get o k = Some v -> In (k, v) o.
Proof.
  induction o as [|[k0 v0] o IH]; simpl; [discriminate|].
  destruct (String.eqb_spec k k0) as [->|Hk]; [|auto].
  intros [= ->]. now left.
Qed.

Lemma in_replace o k v p : In p (Obj.replace o k v) -> p = (k, v) \/ In p o.
Proof.
  induction o as [|[k0 v0] o IH]; simpl; [tauto|].
  destruct (String.eqb k k0); simpl; intuition auto.
Qed.

Lemma in_place o n k v p : In p (Obj.place o n k v) -> p = (k, v) \/ In p o.
Proof.
  induction o as [|[k0 v0] o IH]; simpl; [intuition auto|].
  destruct (Key.array_index k0) as [m|]; [destruct (m <? n)%N|]; simpl;
    intuition auto.
Qed.

Lemma in_set o k v p : In p (Obj.set o k v) -> p = (k, v) \/ In p o.
Proof.
  unfold Obj.set. destruct (Obj.has o k).
  - apply in_replace.
  - destruct (Key.array_index k).
    + apply in_place.
    + rewrite in_app_iff. simpl. intuition auto.
Qed.

End Table.
End ObjElems.

(* ================================================================== *)
(** ** Loops *)

(** The rule of the loop invariant: [Inv done s] holds of the state [s]
    reached after the elements [done]. *)
Lemma forEach_invariant {A S : Type} (Inv : list A -> S -> Prop)
    (xs : list A) (body : A -> S -> option S) :
  (forall done x rest s, xs = done ++ x :: rest -> Inv done s ->
     exists s', body x s = Some s' /\ Inv (done ++ [x]) s') ->
  forall s, Inv [] s -> exists s', forEach xs body s = Some s' /\ Inv xs s'.
Proof.
  intros Hbody.
  assert (G : forall todo done s, xs = done ++ todo -> Inv done s ->
            exists s', forEach todo body s = Some s' /\ Inv xs s').
  { induction todo as [|x todo IH]; intros done s Hxs Hinv; simpl.
    - rewrite app_nil_r in Hxs. subst. eauto.
    - destruct (Hbody done x todo s Hxs Hinv) as [s1 [-> H1]]. simpl.
      apply (IH (done ++ [x])); [|assumption].
      now rewrite <- app_assoc. }
  intros s H0. now apply (G xs [] s).
Qed.

Lemma in_range from to i : In i (range from to) <-> from <= i < to.
Proof. unfold range. rewrite in_seq. lia. Qed.

Lemma in_middle {A : Type} (xs done rest : list A) (x : A) :
  xs = done ++ x :: rest -> In x xs.
Proof. intros ->. apply in_elt. Qed.

(* ================================================================== *)
(** ** The relation of a rules table *)

Lemma ones_empty : ones Obj.empty.
Proof. intros a r []. Qed.

Lemma ones_set rules a r :
  ones rules -> (forall b v, In (b, v) r -> v = 1%Z) ->
  ones (Obj.set rules a r).
Proof.
  intros H Hr a' r' Hin. apply ObjElems.in_set in Hin as [[= -> ->]|Hin].
  - exact Hr.
  - exact (H _ _ Hin).
Qed.

Lemma ones_get rules a r :
  ones rules -> Obj.get rules a = Some r -> forall b v, In (b, v) r -> v = 1%Z.
Proof. intros H Hg. apply (H a). now apply ObjElems.get_in. Qed.

Lemma rel_get rules a b :
  rel rules a b <->
  exists r v, Obj.get rules a = Some r /\ Obj.get r b = Some v /\ v <> 0%Z.
Proof.
  unfold rel, recorded. split.
  - destruct (Obj.get rules a) as [r|]; [|discriminate].
    destruct (Obj.get r b) as [v|] eqn:Hb; [|discriminate].
    intros H. exists r, v. split; [reflexivity|]. split; [exact Hb|].
    apply negb_true_iff, Z.eqb_neq in H. exact H.
  - intros (r & v & -> & -> & Hv). now apply negb_true_iff, Z.eqb_neq.
Qed.

Lemma rel_keys rules a b :
  ones rules ->
  (rel rules a b <-> exists r, Obj.get rules a = Some r /\ In b (Obj.keys r)).
Proof.
  intros H1. rewrite rel_get. split.
  - intros (r & v & Ha & Hb & _). exists r. split; [assumption|].
    eapply ObjFacts.get_in_keys; eauto.
  - intros (r & Ha & Hb). apply ObjFacts.in_keys_get in Hb as [v Hv].
    exists r, v. repeat split; try assumption.
    rewrite (ones_get _ _ _ H1 Ha _ _ (ObjElems.get_in _ _ _ _ Hv)). discriminate.
Qed.

Lemma rel_has rules a b : rel rules a b -> In a (Obj.keys rules).
Proof.
  intros H. apply rel_get in H as (r & _ & Ha & _).
  eapply ObjFacts.get_in_keys; eauto.
Qed.

(** *** One step of [updateRules] *)

(** [rules[curr] = {}] on a table without [curr]. *)
Lemma rel_create rules curr a b :
  Obj.has rules curr = false ->
  (rel (Obj.set rules curr Obj.empty) a b <-> rel rules a b).
Proof.
  intros Hn. apply ObjFacts.has_false in Hn.
  unfold rel, recorded. rewrite ObjFacts.get_set.
  destruct (String.eqb_spec a curr) as [->|Hne]; [|reflexivity].
  rewrite Hn. simpl. reflexivity.
Qed.

(** [rules[curr][temp] = 1] *)
Lemma rel_mark rules curr temp r a b :
  Obj.get rules curr = Some r ->
  (rel (Obj.set rules curr (Obj.set r temp 1%Z)) a b <->
   rel rules a b \/ (a = curr /\ b = temp)).
Proof.
  intros Hr. unfold rel, recorded. rewrite ObjFacts.get_set.
  destruct (String.eqb_spec a curr) as [->|Hne].
  - rewrite Hr, ObjFacts.get_set.
    destruct (String.eqb_spec b temp) as [->|Hb]; simpl; [tauto|].
    intuition congruence.
  - intuition congruence.
Qed.

Lemma ones_mark rules curr temp r :
  ones rules -> Obj.get rules curr = Some r ->
  ones (Obj.set rules curr (Obj.set r temp 1%Z)).
Proof.
  intros H Hr. apply ones_set; [assumption|].
  intros b v Hin. apply ObjElems.in_set in Hin as [[= _ ->]|Hin];
    [reflexivity|].
  eapply ones_get; eauto.
Qed.

(* ================================================================== *)
(** ** [updateRules] *)

Lemma at_index_nth_error arr j :
  j < List.length arr -> nth_error arr j = Some (at_index arr j).
Proof. intros H. unfold at_index. now apply nth_error_nth'. Qed.

Lemma precedes_in_at_index arr a b :
  precedes_in arr a b <->
  exists i j, i < j < List.length arr /\ a = at_index arr i /\ b = at_index arr j.
Proof.
  split.
  - intros (i & j & Hij & Ha & Hb). exists i, j.
    assert (Hj : j < List.length arr) by (apply nth_error_Some; congruence).
    rewrite (at_index_nth_error arr i) in Ha by lia.
    rewrite (at_index_nth_error arr j) in Hb by lia.
    repeat split; congruence || lia.
  - intros (i & j & Hij & -> & ->). exists i, j.
    repeat split; [lia| |]; apply at_index_nth_error; lia.
Qed.

(** The inner loop: [curr] is marked before every later element. *)
Lemma mark_later_spec arr i l rules0 :
  let curr := at_index arr i in
  ones rules0 -> Obj.has rules0 curr = true ->
  exists rules',
    forEach (range (i + 1) l) (fun j rules =>
      let temp := at_index arr j in
      r <- Obj.get rules curr ;;
      Some (Obj.set rules curr (Obj.set r temp 1%Z))) rules0 = Some rules'
    /\ ones rules'
    /\ forall a b, rel rules' a b <->
         rel rules0 a b \/ (a = curr /\ exists j, i < j < l /\ b = at_index arr j).
Proof.
  intros curr H1 Hhas.
  pose (Inv := fun (done : list nat) (rules : rules_t) =>
    ones rules /\ Obj.has rules curr = true /\
    forall a b, rel rules a b <->
      rel rules0 a b \/ (a = curr /\ exists j, In j done /\ b = at_index arr j)).
  destruct (forEach_invariant Inv (range (i + 1) l)
    (fun j rules =>
      let temp := at_index arr j in
      r <- Obj.get rules curr ;;
      Some (Obj.set rules curr (Obj.set r temp 1%Z)))) with (s := rules0)
    as (rules' & Hrun & Hone & _ & Hrel).
  - intros done j rest rules Hsplit (Hone & Hcur & Hrel).
    apply ObjFacts.has_get in Hcur as [r Hr]. cbv zeta. rewrite Hr. simpl.
    eexists. split; [reflexivity|]. split; [|split].
    + now apply ones_mark.
    + apply ObjFacts.has_get. rewrite ObjFacts.get_set_same. eauto.
    + intros a b. rewrite rel_mark by eassumption. rewrite Hrel.
      split.
      * intros [[H|(Ha & j' & Hj' & Hb)]|[Ha Hb]]; auto.
        -- right. split; [assumption|]. exists j'. rewrite in_app_iff. auto.
        -- right. split; [assumption|]. exists j. rewrite in_app_iff.
           simpl. auto.
      * intros [H|(Ha & j' & Hj' & Hb)]; auto.
        apply in_app_iff in Hj' as [Hj'|[<-|[]]]; eauto 6.
  - repeat split; auto; try tauto.
    intros [H|(_ & j & [] & _)]. assumption.
  - exists rules'. split; [exact Hrun|]. split; [exact Hone|].
    intros a b. rewrite Hrel. split.
    + intros [H|(Ha & j & Hj & Hb)]; auto.
      apply in_range in Hj. right. split; [assumption|]. exists j.
      split; [lia|assumption].
    + intros [H|(Ha & j & Hj & Hb)]; auto.
      right. split; [assumption|]. exists j. split; [|assumption].
      apply in_range. lia.
Qed.

(** The table after [updateRules]: the pairs of the sequence are added,
    nothing else changes, and no step raises. *)
Lemma updateRules_spec arr rules0 :
  ones rules0 ->
  exists rules',
    updateRules arr rules0 = Some rules'
    /\ ones rules'
    /\ forall a b, rel rules' a b <-> rel rules0 a b \/ precedes_in arr a b.
Proof.
  intros H1. unfold updateRules.
  destruct (Nat.leb_spec (List.length arr) 1) as [Hshort|Hlong].
  - exists rules0. repeat split; auto.
    intros [H|H]; [assumption|].
    apply precedes_in_at_index in H as (i & j & Hij & _). lia.
  - set (l := List.length arr). cbv zeta.
    pose (Inv := fun (done : list nat) (rules : rules_t) =>
      ones rules /\
      forall a b, rel rules a b <->
        rel rules0 a b \/
        exists i j, In i done /\ i < j < l /\
                    a = at_index arr i /\ b = at_index arr j).
    match goal with
    | |- exists r, forEach ?xs ?body _ = _ /\ _ =>
        destruct (forEach_invariant Inv xs body) with (s := rules0)
          as (rules' & Hrun & Hone & Hrel)
    end.
    + intros done i rest rules Hsplit (Hone & Hrel).
      set (curr := at_index arr i).
      set (rules1 := if Obj.has rules curr then rules
                     else Obj.set rules curr Obj.empty).
      assert (Hone1 : ones rules1).
      { subst rules1. destruct (Obj.has rules curr); [assumption|].
        apply ones_set; [assumption|]. intros b v []. }
      assert (Hhas1 : Obj.has rules1 curr = true).
      { subst rules1. destruct (Obj.has rules curr) eqn:E; [assumption|].
        apply ObjFacts.has_get. rewrite ObjFacts.get_set_same. eauto. }
      assert (Hrel1 : forall a b, rel rules1 a b <-> rel rules a b).
      { intros a b. subst rules1.
        destruct (Obj.has rules curr) eqn:E; [reflexivity|].
        now apply rel_create. }
      destruct (mark_later_spec arr i l rules1 Hone1 Hhas1)
        as (rules2 & Hrun2 & Hone2 & Hrel2).
      exists rules2. split; [exact Hrun2|]. split; [exact Hone2|].
      intros a b. rewrite Hrel2, Hrel1, Hrel. fold curr. split.
      * intros [[H|(i' & j & Hi' & Hj & Ha & Hb)]|(Ha & j & Hj & Hb)]; auto.
        -- right. exists i', j. rewrite in_app_iff. auto.
        -- right. exists i, j. rewrite in_app_iff. simpl. auto 6.
      * intros [H|(i' & j & Hi' & Hj & Ha & Hb)]; auto.
        apply in_app_iff in Hi' as [Hi'|[<-|[]]].
        -- left. right. eauto 8.
        -- right. split; [assumption|]. eauto.
    + split; [assumption|]. intros a b. split; auto.
      intros [H|(i & j & [] & _)]. assumption.
    + exists rules'. split; [exact Hrun|]. split; [exact Hone|].
      intros a b. rewrite Hrel, precedes_in_at_index. split.
      * intros [H|(i & j & Hi & Hj & Ha & Hb)]; auto.
        right. exists i, j. repeat split; auto; lia.
      * intros [H|(i & j & Hij & Ha & Hb)]; auto.
        right. exists i, j. repeat split; auto; try lia.
        apply in_range. lia.
Qed.

(** The table after the first loop of [getMasterRules] records the direct
    rules of the input, and only them. *)
Lemma direct_snoc done arr a b :
  direct (done ++ [arr]) a b <-> direct done a b \/ precedes_in arr a b.
Proof.
  unfold direct. split.
  - intros (s & Hin & Hs). apply in_app_iff in Hin as [Hin|[<-|[]]]; eauto.
  - intros [(s & Hin & Hs)|H].
    + exists s. rewrite in_app_iff. auto.
    + exists arr. rewrite in_app_iff. simpl. auto.
Qed.

Lemma direct_rules_spec input :
  exists rules,
    forEach input updateRules Obj.empty = Some rules
    /\ ones rules
    /\ forall a b, rel rules a b <-> direct input a b.
Proof.
  apply (forEach_invariant
    (fun done rules => ones rules /\ forall a b, rel rules a b <-> direct done a b)).
  - intros done arr rest rules _ (Hone & Hrel).
    destruct (updateRules_spec arr rules Hone) as (rules' & Hrun & Hone' & Hrel').
    exists rules'. repeat split; auto.
    + intros H. apply direct_snoc. rewrite <- Hrel. now apply Hrel'.
    + intros H. apply Hrel'. rewrite Hrel. now apply direct_snoc.
  - split; [exact ones_empty|]. intros a b. split.
    + intros H. apply rel_get in H as (r & v & Hr & _). discriminate.
    + intros (s & [] & _).
Qed.

(* ================================================================== *)
(** ** The merge pass *)

Lemma in_keys_merge dst src b :
  In b (Obj.keys (merge dst src)) <-> In b (Obj.keys dst) \/ In b (Obj.keys src).
Proof.
  unfold merge. revert dst.
  induction src as [|[k v] src IH]; intros dst; simpl; [tauto|].
  rewrite IH, ObjFacts.in_keys_set. intuition auto.
Qed.

Lemma ones_merge dst src :
  (forall b v, In (b, v) dst -> v = 1%Z) ->
  (forall b v, In (b, v) src -> v = 1%Z) ->
  forall b v, In (b, v) (merge dst src) -> v = 1%Z.
Proof.
  unfold merge. revert dst.
  induction src as [|[k w] src IH]; intros dst Hd Hs; simpl; [exact Hd|].
  apply IH.
  - intros b v Hin. apply ObjElems.in_set in Hin as [[= _ ->]|Hin].
    + apply (Hs k). now left.
    + eauto.
  - intros b v Hin. apply (Hs b). now right.
Qed.

Lemma merge_step_spec rule key rules :
  ones rules -> In rule (Obj.keys rules) ->
  exists rules',
    merge_step rule key rules = Some rules'
    /\ ones rules'
    /\ Obj.keys rules' = Obj.keys rules
    /\ forall a b, rel rules' a b <-> rel rules a b \/ (a = rule /\ rel rules key b).
Proof.
  intros H1 Hin. destruct (ObjFacts.in_keys_get _ _ _ Hin) as [dst Hdst].
  unfold merge_step. rewrite Hdst. simpl.
  set (src := match Obj.get rules key with Some s => s | None => Obj.empty end).
  assert (Hsrc : forall b v, In (b, v) src -> v = 1%Z).
  { subst src. destruct (Obj.get rules key) eqn:E; [|intros b v []].
    eapply ones_get; eauto. }
  assert (Hone' : ones (Obj.set rules rule (merge dst src))).
  { apply ones_set; [assumption|]. apply ones_merge; [|assumption].
    eapply ones_get; eauto. }
  eexists. split; [reflexivity|]. split; [exact Hone'|]. split.
  - apply ObjFacts.keys_set_old. apply ObjFacts.has_get. eauto.
  - intros a b. rewrite (rel_keys _ a b Hone'), !(rel_keys _ _ b H1).
    rewrite ObjFacts.get_set.
    destruct (String.eqb_spec a rule) as [->|Hne].
    + split.
      * intros (r & [= <-] & Hb). apply in_keys_merge in Hb as [Hb|Hb].
        -- left. eauto.
        -- right. split; [reflexivity|]. subst src.
           destruct (Obj.get rules key) as [s|]; [eauto|destruct Hb].
      * intros [(r & Hr & Hb)|(_ & r & Hr & Hb)]; eexists;
          (split; [reflexivity|]); apply in_keys_merge.
        -- left. congruence.
        -- right. subst src. now rewrite Hr.
    + split; [auto|]. intros [H|[Ha _]]; [assumption|contradiction].
Qed.

Lemma clos_trans_sub (R S : string -> string -> Prop) :
  (forall a b, R a b -> clos_trans string S a b) ->
  forall a b, clos_trans string R a b -> clos_trans string S a b.
Proof.
  intros H a b Hab. induction Hab as [a b Hab|a b c _ IH1 _ IH2].
  - now apply H.
  - eapply t_trans; eassumption.
Qed.

(** The inner loop of the merge pass, for one [rule] and the keys [ks]
    that [rules[rule]] has when the loop starts. *)
Lemma merge_rule_spec rule ks rules0 :
  ones rules0 -> In rule (Obj.keys rules0) ->
  (forall key, In key ks -> rel rules0 rule key) ->
  exists rules',
    forEach ks (merge_step rule) rules0 = Some rules'
    /\ ones rules'
    /\ Obj.keys rules' = Obj.keys rules0
    /\ (forall a b, rel rules0 a b -> rel rules' a b)
    /\ (forall a b, rel rules' a b -> clos_trans string (rel rules0) a b)
    /\ (forall key c, In key ks -> rel rules0 key c -> rel rules' rule c).
Proof.
  intros H1 Hin Hks.
  apply (forEach_invariant (fun done rules =>
    ones rules
    /\ Obj.keys rules = Obj.keys rules0
    /\ (forall a b, rel rules0 a b -> rel rules a b)
    /\ (forall a b, rel rules a b -> clos_trans string (rel rules0) a b)
    /\ (forall key c, In key done -> rel rules0 key c -> rel rules rule c))).
  - intros done key rest rules Hsplit (Hone & Hkeys & Hmono & Hsound & Hstitch).
    destruct (merge_step_spec rule key rules Hone) as
      (rules' & Hrun & Hone' & Hkeys' & Hrel'); [now rewrite Hkeys|].
    exists rules'. split; [exact Hrun|]. split; [exact Hone'|].
    split; [congruence|]. split; [|split].
    + intros a b H. apply Hrel'. auto.
    + intros a b H. apply Hrel' in H as [H|[-> H]]; [auto|].
      apply t_trans with key; [|auto].
      apply t_step, Hks. eapply in_middle; eassumption.
    + intros key' c Hk Hc. apply Hrel'.
      apply in_app_iff in Hk as [Hk|[<-|[]]]; [left; eauto|].
      right. auto.
  - repeat split; auto.
    + intros a b H. now apply t_step.
    + intros key c [].
Qed.

(** The whole pass, from the table [rules0] of the direct rules. *)
Lemma merge_pass_spec rules0 :
  ones rules0 ->
  exists rules',
    forEach (Obj.keys rules0) merge_rule rules0 = Some rules'
    /\ ones rules'
    /\ (forall a b, rel rules0 a b -> rel rules' a b)
    /\ (forall a b, rel rules' a b -> clos_trans string (rel rules0) a b)
    /\ (forall a b c, rel rules0 a b -> rel rules0 b c -> rel rules' a c).
Proof.
  intros H1.
  destruct (forEach_invariant (fun done rules =>
    ones rules
    /\ Obj.keys rules = Obj.keys rules0
    /\ (forall a b, rel rules0 a b -> rel rules a b)
    /\ (forall a b, rel rules a b -> clos_trans string (rel rules0) a b)
    /\ (forall a b c, In a done -> rel rules0 a b -> rel rules0 b c ->
          rel rules a c)) (Obj.keys rules0) merge_rule) with (s := rules0)
    as (rules' & Hrun & Hone & _ & Hmono & Hsound & Hstitch).
  - intros done rule rest rules Hsplit (Hone & Hkeys & Hmono & Hsound & Hstitch).
    assert (Hin : In rule (Obj.keys rules)).
    { rewrite Hkeys. eapply in_middle; eassumption. }
    destruct (ObjFacts.in_keys_get _ _ _ Hin) as [r Hr].
    destruct (merge_rule_spec rule (Obj.keys r) rules Hone Hin) as
      (rules' & Hrun & Hone' & Hkeys' & Hmono' & Hsound' & Hstitch').
    { intros key Hk. apply rel_keys; eauto. }
    exists rules'. unfold merge_rule. rewrite Hr. simpl.
    split; [exact Hrun|]. split; [exact Hone'|]. split; [congruence|].
    split; [auto|]. split.
    + intros a b H. apply Hsound' in H.
      revert a b H. apply clos_trans_sub. exact Hsound.
    + intros a b c Ha Hab Hbc.
      apply in_app_iff in Ha as [Ha|[<-|[]]]; [eauto|].
      apply Hstitch' with b; [|auto].
      apply Hmono in Hab.
      apply (rel_keys _ _ _ Hone) in Hab as (r' & Hr' & Hb). congruence.
  - repeat split; auto.
    + intros a b H. now apply t_step.
    + intros a b c [].
  - exists rules'. repeat split; auto.
    intros a b c Hab Hbc. apply Hstitch with b; auto.
    eapply rel_has; eassumption.
Qed.

(** [getMasterRules] returns a table; it holds the direct rules, only
    consequences of them, and every consequence of two of them. *)
Lemma getMasterRules_spec input :
  exists rules,
    getMasterRules input = Some rules
    /\ ones rules
    /\ (forall a b, direct input a b -> rel rules a b)
    /\ (forall a b, rel rules a b -> clos_trans string (direct input) a b)
    /\ (forall a b c, direct input a b -> direct input b c -> rel rules a c).
Proof.
  destruct (direct_rules_spec input) as (rules0 & Hrun0 & Hone0 & Hrel0).
  destruct (merge_pass_spec rules0 Hone0) as
    (rules & Hrun & Hone & Hmono & Hsound & Hstitch).
  exists rules. unfold getMasterRules. rewrite Hrun0. simpl.
  split; [exact Hrun|]. split; [exact Hone|]. split; [|split].
  - intros a b H. apply Hmono, Hrel0, H.
  - intros a b H. apply Hsound in H. revert a b H.
    apply clos_trans_sub. intros a b H. apply t_step, Hrel0, H.
  - intros a b c Hab Hbc. apply Hstitch with b; now apply Hrel0.
Qed.

(* ================================================================== *)
(** ** The unique elements *)

Lemma collect_one_spec arr uniq :
  let uniq' := fold_left (fun uniq elem => Obj.set uniq elem 1%Z) arr uniq in
  (NoDup (Obj.keys uniq) -> NoDup (Obj.keys uniq'))
  /\ forall x, In x (Obj.keys uniq') <-> In x (Obj.keys uniq) \/ In x arr.
Proof.
  revert uniq. induction arr as [|elem arr IH]; intros uniq; simpl.
  - split; [auto|]. tauto.
  - destruct (IH (Obj.set uniq elem 1%Z)) as [Hnd Hin]. split.
    + intros H. now apply Hnd, ObjFacts.NoDup_keys_set.
    + intros x. rewrite Hin, ObjFacts.in_keys_set. intuition auto.
Qed.

Lemma collect_spec input :
  NoDup (Obj.keys (collect input))
  /\ forall x, In x (Obj.keys (collect input)) <-> In x (labels input).
Proof.
  unfold collect, labels.
  assert (G : forall uniq,
    let uniq' := fold_left (fun uniq arr =>
      fold_left (fun uniq elem => Obj.set uniq elem 1%Z) arr uniq) input uniq in
    (NoDup (Obj.keys uniq) -> NoDup (Obj.keys uniq'))
    /\ forall x, In x (Obj.keys uniq') <->
         In x (Obj.keys uniq) \/ In x (concat input)).
  { induction input as [|arr input IH]; intros uniq; simpl.
    - split; [auto|]. tauto.
    - destruct (collect_one_spec arr uniq) as [Hnd1 Hin1].
      destruct (IH (fold_left (fun uniq elem => Obj.set uniq elem 1%Z) arr uniq))
        as [Hnd Hin].
      split; [auto|].
      intros x. rewrite Hin, Hin1, in_app_iff. tauto. }
  destruct (G Obj.empty) as [Hnd Hin]. split.
  - apply Hnd. constructor.
  - intros x. rewrite Hin. simpl. tauto.
Qed.

(* ================================================================== *)
(** ** The sorting routines *)

Section Comparator.

Variable cmp : string -> string -> Z.

Lemma insert_left_perm element rev_done :
  Permutation (element :: rev_done) (insert_left cmp element rev_done).
Proof.
  induction rev_done as [|tmp rest IH]; simpl; [reflexivity|].
  destruct (cmp tmp element >? 0)%Z; [|reflexivity].
  rewrite perm_swap. now apply perm_skip.
Qed.

Lemma InsertionSort_perm a : Permutation a (InsertionSort cmp a).
Proof.
  unfold InsertionSort. rewrite <- Permutation_rev.
  assert (G : forall done,
    Permutation (rev a ++ done)
      (fold_left (fun rev_done element => insert_left cmp element rev_done)
         a done)).
  { induction a as [|x a' IH]; intros done; simpl; [reflexivity|].
    rewrite <- IH, <- app_assoc. simpl.
    apply Permutation_app_head, insert_left_perm. }
  specialize (G []). rewrite app_nil_r in G.
  now rewrite <- G, <- Permutation_rev.
Qed.

(** *** On a consistent comparator *)

Variable universe : list string.
Hypothesis Hcmp : consistent cmp universe.

Lemma cmp_gt_lt a b :
  In a universe -> In b universe -> (cmp a b > 0)%Z -> (cmp b a < 0)%Z.
Proof. intros Ha Hb H. now apply (cmp_lt_gt _ _ Hcmp b a). Qed.

Lemma cmp_le_trans a b c :
  In a universe -> In b universe -> In c universe ->
  (cmp a b <= 0)%Z -> (cmp b c <= 0)%Z -> (cmp a c <= 0)%Z.
Proof.
  intros Ha Hb Hc Hab Hbc.
  destruct (Z.eq_dec (cmp a b) 0) as [Eab|Nab];
    destruct (Z.eq_dec (cmp b c) 0) as [Ebc|Nbc].
  - rewrite (cmp_eq_trans _ _ Hcmp a b c); auto. lia.
  - destruct (Z.lt_total (cmp a c) 0) as [H|[H|H]]; [lia| |].
    + pose proof (cmp_eq_sym _ _ Hcmp a b Ha Hb Eab) as Eba.
      pose proof (cmp_eq_trans _ _ Hcmp b a c Hb Ha Hc Eba H). lia.
    + assert (cmp c a < 0)%Z by (apply cmp_gt_lt; auto; lia).
      assert (cmp b a < 0)%Z
        by (apply (cmp_lt_trans _ _ Hcmp b c a); auto; lia).
      pose proof (cmp_eq_sym _ _ Hcmp a b Ha Hb Eab). lia.
  - destruct (Z.lt_total (cmp a c) 0) as [H|[H|H]]; [lia| |].
    + pose proof (cmp_eq_sym _ _ Hcmp a c Ha Hc H) as Eca.
      pose proof (cmp_eq_trans _ _ Hcmp b c a Hb Hc Ha Ebc Eca) as Eba.
      pose proof (cmp_eq_sym _ _ Hcmp b a Hb Ha Eba). lia.
    + assert (cmp c a < 0)%Z by (apply cmp_gt_lt; auto; lia).
      assert (cmp c b < 0)%Z
        by (apply (cmp_lt_trans _ _ Hcmp c a b); auto; lia).
      pose proof (cmp_eq_sym _ _ Hcmp b c Hb Hc Ebc). lia.
  - assert (cmp a c < 0)%Z
      by (apply (cmp_lt_trans _ _ Hcmp a b c); auto; lia).
    lia.
Qed.

Lemma insert_left_descending element rev_done :
  In element universe -> incl rev_done universe ->
  descending cmp rev_done -> descending cmp (insert_left cmp element rev_done).
Proof.
  intros He. induction rev_done as [|tmp rest IH]; intros Hincl Hs; simpl.
  - repeat constructor.
  - assert (Ht : In tmp universe) by (apply Hincl; now left).
    assert (Hr : incl rest universe) by (intros x Hx; apply Hincl; now right).
    apply StronglySorted_inv in Hs as [Hs Hall].
    destruct (Z.gtb_spec (cmp tmp element) 0) as [Hgt|Hle].
    + constructor; [apply IH; assumption|].
      eapply Permutation_Forall; [apply insert_left_perm|].
      constructor; [|assumption].
      assert (cmp element tmp < 0)%Z by (apply cmp_gt_lt; auto; lia). lia.
    + constructor; [constructor; assumption|].
      constructor; [assumption|].
      rewrite Forall_forall in Hall |- *. intros y Hy.
      apply cmp_le_trans with tmp; auto.
Qed.

Lemma sorted_snoc (R : string -> string -> Prop) l x :
  StronglySorted R l -> Forall (fun y => R y x) l ->
  StronglySorted R (l ++ [x]).
Proof.
  induction l as [|y l IH]; intros Hs Hall; simpl.
  - repeat constructor.
  - apply StronglySorted_inv in Hs as [Hs Hy].
    apply Forall_cons_iff in Hall as [Hyx Hall].
    constructor; [auto|].
    apply Forall_app. split; [assumption|]. now constructor.
Qed.

Lemma descending_rev l :
  descending cmp l -> StronglySorted (fun a b => (cmp a b <= 0)%Z) (rev l).
Proof.
  induction l as [|x l IH]; intros Hs; simpl; [constructor|].
  apply StronglySorted_inv in Hs as [Hs Hall].
  apply sorted_snoc; [auto|].
  apply Forall_rev in Hall. exact Hall.
Qed.

Lemma InsertionSort_sorted a :
  incl a universe ->
  StronglySorted (fun a b => (cmp a b <= 0)%Z) (InsertionSort cmp a).
Proof.
  intros Hincl. unfold InsertionSort. apply descending_rev.
  assert (G : forall done, incl done universe -> descending cmp done ->
    descending cmp (fold_left
      (fun rev_done element => insert_left cmp element rev_done) a done)).
  { induction a as [|x a' IH]; intros done Hd Hs; simpl; [assumption|].
    apply IH.
    - intros y Hy. apply Hincl. now right.
    - intros y Hy.
      apply (Permutation_in _ (Permutation_sym (insert_left_perm x done)))
        in Hy.
      destruct Hy as [<-|Hy]; [apply Hincl; now left | auto].
    - apply insert_left_descending; auto. apply Hincl. now left. }
  apply G; [intros y [] | constructor].
Qed.

End Comparator.

(** V8's insertion sort meets what ECMAScript asks of a sort. *)
#[export] Instance v8_insertion_spec : ArraySortSpec v8_insertion.
Proof.
  split.
  - intros cmp l. apply InsertionSort_perm.
  - intros cmp l H. apply (InsertionSort_sorted cmp l H). apply incl_refl.
Qed.

(** *** Binary insertion *)

Section TimSort.

Variable cmp : string -> string -> Z.

Lemma run_length_le desc prev rest :
  run_length cmp desc prev rest <= List.length rest.
Proof.
  revert prev. induction rest as [|cur rest IH]; intros prev; simpl; [lia|].
  destruct (if desc then _ else _); [|lia].
  specialize (IH cur). lia.
Qed.

Lemma CountAndMakeRun_perm a :
  Permutation a (fst (CountAndMakeRun cmp a))
  /\ snd (CountAndMakeRun cmp a) <= List.length a.
Proof.
  unfold CountAndMakeRun.
  destruct a as [|x0 [|x1 rest]]; simpl; [split; auto..|].
  pose proof (run_length_le (cmp x1 x0 <? 0)%Z x1 rest) as Hle.
  destruct (cmp x1 x0 <? 0)%Z; simpl; [|split; [reflexivity|lia]].
  split; [|lia].
  set (n := run_length cmp true x1 rest) in *.
  change (Permutation (x0 :: x1 :: rest)
            (rev (firstn (2 + n) (x0 :: x1 :: rest))
               ++ skipn (2 + n) (x0 :: x1 :: rest))).
  rewrite <- Permutation_rev. now rewrite firstn_skipn.
Qed.

Lemma insertion_point_bounds fuel pivot a left right :
  left <= right ->
  left <= insertion_point fuel cmp pivot a left right <= right.
Proof.
  revert left right.
  induction fuel as [|fuel IH]; intros left right H; cbn [insertion_point];
    [lia|].
  destruct (Nat.ltb_spec left right) as [Hlt|]; [|lia].
  destruct (cmp pivot _ <? 0)%Z.
  - assert (Hm : left <= left + (right - left) / 2) by lia.
    apply IH in Hm.
    assert ((right - left) / 2 < right - left)
      by (apply Nat.div_lt; lia).
    lia.
  - assert ((right - left) / 2 < right - left)
      by (apply Nat.div_lt; lia).
    assert (Hm : left + (right - left) / 2 + 1 <= right) by lia.
    apply IH in Hm. lia.
Qed.

Lemma split_at_index (a : list string) start :
  start < List.length a ->
  skipn start a = at_index a start :: skipn (start + 1) a.
Proof.
  revert start. induction a as [|x a IH]; intros start H; simpl in H; [lia|].
  destruct start as [|start]; simpl; [reflexivity|].
  rewrite IH by lia. unfold at_index. simpl. reflexivity.
Qed.

(** The array around the insertion: the sorted part split at the
    insertion point, the pivot, the rest. *)
Lemma binary_insert_shape a start :
  start < List.length a ->
  let pivot := at_index a start in
  let left := insertion_point start cmp pivot a 0 start in
  let sorted := firstn start a in
  a = firstn left sorted ++ skipn left sorted ++ pivot :: skipn (start + 1) a
  /\ binary_insert cmp a start =
     firstn left sorted ++ pivot :: skipn left sorted ++ skipn (start + 1) a
  /\ left <= start.
Proof.
  intros Hlt pivot left sorted.
  assert (Hb : left <= start)
    by (apply (insertion_point_bounds start pivot a 0 start); lia).
  split; [|split; [|exact Hb]].
  - rewrite app_assoc, firstn_skipn. subst sorted pivot.
    rewrite <- split_at_index by assumption. now rewrite firstn_skipn.
  - unfold binary_insert. fold pivot. fold left. subst sorted.
    rewrite firstn_firstn, Nat.min_l by assumption.
    now rewrite skipn_firstn_comm.
Qed.

Lemma binary_insert_perm a start :
  start < List.length a -> Permutation a (binary_insert cmp a start).
Proof.
  intros H. destruct (binary_insert_shape a start H) as (Ha & Hb & _).
  rewrite Hb. rewrite Ha at 1.
  apply Permutation_app_head.
  rewrite (app_comm_cons _ _ (at_index a start)).
  symmetry. apply Permutation_middle.
Qed.



(** *** On a consistent comparator *)

Variable universe : list string.
Hypothesis Hcmp : consistent cmp universe.













End TimSort.


(* ================================================================== *)
(** ** Deciding validity *)

Lemma pairs_of_spec s a b : In (a, b) (pairs_of s) <-> precedes_in s a b.
Proof.
  induction s as [|x s IH]; simpl.
  - split; [tauto|]. intros (i & j & _ & Hi & _). now destruct i.
  - rewrite in_app_iff, in_map_iff, IH. split.
    + intros [(y & [= <- <-] & Hy)|(i & j & Hij & Hi & Hj)].
      * apply In_nth_error in Hy as [j Hj]. exists 0, (S j).
        repeat split; auto. lia.
      * exists (S i), (S j). repeat split; auto. lia.
    + intros (i & j & Hij & Hi & Hj).
      destruct j as [|j]; [lia|]. simpl in Hj.
      destruct i as [|i]; simpl in Hi.
      * left. exists b. injection Hi as ->. split; [reflexivity|].
        eapply nth_error_In; eassumption.
      * right. exists i, j. repeat split; auto. lia.
Qed.

Lemma direct_pairs_spec input a b :
  In (a, b) (direct_pairs input) <-> direct input a b.
Proof.
  unfold direct_pairs, direct. rewrite in_flat_map.
  split; intros (s & Hs & H); exists s; (split; [assumption|]);
    now apply pairs_of_spec.
Qed.

Lemma precedes_in_labels s a b : precedes_in s a b -> In a s /\ In b s.
Proof.
  intros (i & j & _ & Hi & Hj). split; eapply nth_error_In; eassumption.
Qed.

Lemma direct_labels input a b :
  direct input a b -> In a (labels input) /\ In b (labels input).
Proof.
  intros (s & Hs & H). apply precedes_in_labels in H as [Ha Hb].
  unfold labels. rewrite !in_concat. split; exists s; auto.
Qed.

Lemma nodupb_spec s : nodupb s = true -> NoDup s.
Proof.
  induction s as [|a s IH]; simpl; [constructor|].
  intros H. apply andb_true_iff in H as [Ha Hs].
  constructor; [|auto].
  intros Hin. apply negb_true_iff in Ha.
  assert (existsb (String.eqb a) s = true); [|congruence].
  apply existsb_exists. exists a. split; [assumption|apply String.eqb_refl].
Qed.

(** A ranking of the labels that every direct rule increases rules out
    cycles and contradictions. *)
Lemma ranked_acyclic input (rank : string -> nat) :
  (forall a b, direct input a b -> rank a < rank b) ->
  (forall a b, direct input a b -> ~ direct input b a) /\ acyclic input.
Proof.
  intros Hrank.
  assert (G : forall a b, clos_trans string (direct input) a b -> rank a < rank b).
  { intros a b H. induction H as [a b H|a b c _ IH1 _ IH2]; [auto|lia]. }
  split.
  - intros a b Hab Hba. apply Hrank in Hab, Hba. lia.
  - intros a H. apply G in H. lia.
Qed.

Lemma valid_inputb_spec order input :
  valid_inputb order input = true -> valid_input input.
Proof.
  unfold valid_inputb. intros H.
  apply andb_true_iff in H as [H Hrank].
  apply andb_true_iff in H as [H Hseq].
  apply andb_true_iff in H as [Hlab Hne].
  destruct (ranked_acyclic input (fun a => index_of a order)) as [Hc Ha].
  { intros a b Hd. apply direct_pairs_spec in Hd.
    rewrite forallb_forall in Hrank. apply Hrank in Hd.
    now apply Nat.ltb_lt in Hd. }
  split; auto.
  - rewrite forallb_forall in Hlab. apply Forall_forall. intros s Hs.
    specialize (Hlab s Hs). rewrite forallb_forall in Hlab.
    apply Forall_forall. intros x Hx. apply negb_true_iff. auto.
  - intros ->. discriminate.
  - rewrite forallb_forall in Hseq. apply Forall_forall. intros s Hs.
    specialize (Hseq s Hs). apply andb_true_iff in Hseq as [Hl Hn]. split.
    + intros ->. discriminate.
    + now apply nodupb_spec.
Qed.



(* ================================================================== *)
(** ** [preserveOrder] *)

(** A run of [preserveOrder]: the rules are built, no step raises, and the
    engine sorts the keys of [uniq] by the comparator over those rules. *)
Lemma preserveOrder_run {E : ArraySort} input :
  exists rules,
    getMasterRules input = Some rules
    /\ preserveOrder input =
       Some (array_sort (sortByRules rules) (Obj.keys (collect input))).
Proof.
  destruct (getMasterRules_spec input) as (rules & Hrun & _).
  exists rules. split; [exact Hrun|].
  unfold preserveOrder. now rewrite Hrun.
Qed.

Lemma preserveOrder_labels {E : ArraySort} {ES : ArraySortSpec E} input :
  exists out,
    preserveOrder input = Some out
    /\ NoDup out
    /\ forall x, In x out <-> In x (labels input).
Proof.
  destruct (preserveOrder_run input) as (rules & _ & Hrun).
  destruct (collect_spec input) as [Hnd Hin].
  pose proof (array_sort_perm (sortByRules rules) (Obj.keys (collect input)))
    as Hperm.
  eexists. split; [exact Hrun|]. split.
  - eapply Permutation_NoDup; eassumption.
  - intros x. rewrite <- Hin. split; apply Permutation_in;
      [apply Permutation_sym|]; assumption.
Qed.

Lemma preserveOrder_perm_labels {E : ArraySort} {ES : ArraySortSpec E} input :
  exists out,
    preserveOrder input = Some out
    /\ Permutation (nodup string_dec (labels input)) out.
Proof.
  destruct (preserveOrder_labels input) as (out & Hrun & Hnd & Hin).
  exists out. split; [exact Hrun|].
  apply NoDup_Permutation; [apply NoDup_nodup|assumption|].
  intros x. rewrite nodup_In. symmetry. apply Hin.
Qed.

(** Refuting and proving [precedes_in] on a literal list. *)
Ltac precedes_literal :=
  match goal with
  | |- ~ precedes_in _ _ _ =>
      let H := fresh in
      intros H; apply pairs_of_spec in H; simpl in H;
      repeat (destruct H as [H|H]; [discriminate H|]); exact H
  | |- precedes_in _ _ _ =>
      apply pairs_of_spec; simpl; auto 20
  end.

(* ================================================================== *)
(** ** The program on ordinary labels *)

(** On strings that are not names inherited from [Object.prototype] the
    program of [Realm] does what the functions of the first part do. *)

Lemma label_not_proto k : is_label k -> (k =? "__proto__")%string = false.
Proof.
  intros H. destruct (String.eqb_spec k "__proto__") as [->|]; [|reflexivity].
  vm_compute in H. discriminate H.
Qed.

Lemma inherited_label k : is_label k -> Realm.inherited k = Realm.VUndefined.
Proof.
  intros H. unfold Realm.inherited, Realm.prototype_get, Realm.is_function.
  rewrite (label_not_proto k H), H. reflexivity.
Qed.

Lemma read_rules_label rules k :
  is_label k ->
  Realm.read_rules rules k =
  match Obj.get rules k with
  | Some r => Realm.VTable r
  | None => Realm.VUndefined
  end.
Proof.
  intros H. unfold Realm.read_rules.
  destruct (Obj.get rules k); [reflexivity|now apply inherited_label].
Qed.

Lemma assign_label o k n : is_label k -> Realm.assign o k n = Obj.set o k n.
Proof.
  intros H. unfold Realm.assign. rewrite (label_not_proto k H).
  now destruct (Obj.has o k).
Qed.

(** Two loops that agree step by step on the states they go through. *)
Lemma forEach_agree {A S : Type} (Inv : S -> Prop) (xs : list A)
    (bodyR : A -> S -> run S) (body : A -> S -> option S) :
  (forall x s, In x xs -> Inv s -> bodyR x s = lift (body x s)) ->
  (forall x s s', In x xs -> Inv s -> body x s = Some s' -> Inv s') ->
  forall s, Inv s -> Realm.forEach xs bodyR s = lift (forEach xs body s).
Proof.
  induction xs as [|x xs IH]; intros Hstep Hinv s Hs; [reflexivity|].
  simpl. rewrite (Hstep x s (or_introl eq_refl) Hs).
  destruct (body x s) as [s'|] eqn:E; [|reflexivity]. simpl.
  apply IH.
  - intros y t Hy. apply Hstep. now right.
  - intros y t t' Hy. apply Hinv. now right.
  - exact (Hinv x s s' (or_introl eq_refl) Hs E).
Qed.

Lemma at_index_in arr i : i < List.length arr -> In (at_index arr i) arr.
Proof. intros H. unfold at_index. now apply nth_In. Qed.

Lemma mark_label curr temp rules :
  is_label curr -> is_label temp ->
  Realm.mark curr temp rules =
  lift (r <- Obj.get rules curr ;;
        Some (Obj.set rules curr (Obj.set r temp 1%Z))).
Proof.
  intros Hc Ht. unfold Realm.mark. rewrite (read_rules_label rules curr Hc).
  destruct (Obj.get rules curr) as [r|]; [|reflexivity].
  simpl. now rewrite (assign_label r temp 1%Z Ht).
Qed.

(** On an array of labels [updateRules] reads and writes own properties
    only. *)
Lemma updateRules_agree arr rules :
  Forall is_label arr ->
  Realm.updateRules arr rules = lift (updateRules arr rules).
Proof.
  intros Hl. rewrite Forall_forall in Hl.
  unfold Realm.updateRules, updateRules.
  destruct (List.length arr <=? 1) eqn:E; [reflexivity|].
  apply Nat.leb_gt in E.
  apply (forEach_agree (fun _ => True)); [|trivial|exact I].
  intros i s Hi _. apply in_range in Hi.
  assert (Hc : is_label (at_index arr i)) by (apply Hl, at_index_in; lia).
  rewrite (read_rules_label s _ Hc).
  replace (Realm.truthy
             match Obj.get s (at_index arr i) with
             | Some r => Realm.VTable r
             | None => Realm.VUndefined
             end) with (Obj.has s (at_index arr i))
    by (unfold Obj.has; now destruct (Obj.get s (at_index arr i))).
  apply (forEach_agree (fun _ => True)); [|trivial|exact I].
  intros j t Hj _. apply in_range in Hj.
  apply mark_label; [assumption|].
  apply Hl, at_index_in. lia.
Qed.

(** *** The merge pass *)

Lemma plain_merge_step rule key rules rules' :
  plain rules -> merge_step rule key rules = Some rules' -> plain rules'.
Proof.
  intros Hp. unfold merge_step.
  destruct (Obj.get rules rule) as [dst|] eqn:Hd; [|discriminate].
  simpl. intros [= <-] a r Ha b Hb.
  rewrite ObjFacts.get_set in Ha.
  destruct (String.eqb a rule); [|exact (Hp a r Ha b Hb)].
  injection Ha as <-. apply in_keys_merge in Hb as [Hb|Hb].
  - exact (Hp rule dst Hd b Hb).
  - destruct (Obj.get rules key) as [src|] eqn:Hs; [|contradiction].
    exact (Hp key src Hs b Hb).
Qed.

Lemma has_merge_step rule key rules rules' k :
  merge_step rule key rules = Some rules' ->
  Obj.has rules k = true -> Obj.has rules' k = true.
Proof.
  unfold merge_step.
  destruct (Obj.get rules rule) as [dst|] eqn:Hd; [|discriminate].
  simpl. intros [= <-] Hk. unfold Obj.has in *.
  rewrite ObjFacts.get_set. destruct (String.eqb k rule); [reflexivity|exact Hk].
Qed.

Lemma merge_step_agree rule key rules :
  Obj.has rules rule = true -> is_label key ->
  Realm.merge_step rule key rules = lift (merge_step rule key rules).
Proof.
  intros Hr Hk. apply ObjFacts.has_get in Hr as [dst Hd].
  unfold Realm.merge_step, merge_step.
  unfold Realm.read_rules at 1. rewrite Hd.
  rewrite (read_rules_label rules key Hk).
  now destruct (Obj.get rules key).
Qed.

(** A loop keeps what each of its steps keeps. *)
Lemma forEach_keeps {A S : Type} (Inv : S -> Prop) (xs : list A)
    (body : A -> S -> option S) :
  (forall x s s', In x xs -> Inv s -> body x s = Some s' -> Inv s') ->
  forall s s', Inv s -> forEach xs body s = Some s' -> Inv s'.
Proof.
  induction xs as [|x xs IH]; intros Hinv s s' Hs; simpl.
  - now intros [= <-].
  - destruct (body x s) as [t|] eqn:E; [|discriminate]. simpl.
    apply IH.
    + intros y u u' Hy. apply Hinv. now right.
    + exact (Hinv x s t (or_introl eq_refl) Hs E).
Qed.

Lemma merge_rule_agree rule rules :
  plain rules -> Obj.has rules rule = true ->
  Realm.merge_rule rule rules = lift (merge_rule rule rules).
Proof.
  intros Hp Hr. pose proof Hr as Hr'. apply ObjFacts.has_get in Hr' as [r Hg].
  unfold Realm.merge_rule, merge_rule, Realm.read_rules. rewrite Hg. simpl.
  apply (forEach_agree (fun s => Obj.has s rule = true)); [| |exact Hr].
  - intros key s Hkey Hs. apply merge_step_agree; [assumption|].
    exact (Hp rule r Hg key Hkey).
  - intros key s s' _ Hs Hrun. exact (has_merge_step _ _ _ _ _ Hrun Hs).
Qed.

Lemma merge_rule_keeps (keys : list string) rule rules rules' :
  plain rules /\ (forall k, In k keys -> Obj.has rules k = true) ->
  merge_rule rule rules = Some rules' ->
  plain rules' /\ (forall k, In k keys -> Obj.has rules' k = true).
Proof.
  unfold merge_rule. destruct (Obj.get rules rule) as [r|]; [|discriminate].
  simpl. intros H.
  apply (forEach_keeps
           (fun s => plain s /\ forall k, In k keys -> Obj.has s k = true));
    [|exact H].
  intros key s s' _ [Hp Hk] Hrun. split.
  - exact (plain_merge_step _ _ _ _ Hp Hrun).
  - intros k Hin. exact (has_merge_step _ _ _ _ _ Hrun (Hk k Hin)).
Qed.

Lemma merge_pass_agree rules :
  plain rules ->
  Realm.forEach (Obj.keys rules) Realm.merge_rule rules =
  lift (forEach (Obj.keys rules) merge_rule rules).
Proof.
  intros Hp.
  apply (forEach_agree
           (fun s => plain s
                     /\ forall k, In k (Obj.keys rules) -> Obj.has s k = true)).
  - intros rule s Hrule [Hps Hk]. apply merge_rule_agree; auto.
  - intros rule s s' _. apply merge_rule_keeps.
  - split; [exact Hp|]. intros k Hk. apply ObjFacts.has_get.
    now apply ObjFacts.in_keys_get.
Qed.

Lemma direct_label input a b :
  is_input input -> direct input a b -> is_label a /\ is_label b.
Proof.
  intros Hi Hd. destruct (direct_labels _ _ _ Hd) as [Ha Hb].
  unfold labels in Ha, Hb. unfold is_input in Hi.
  rewrite Forall_forall in Hi.
  apply in_concat in Ha as (s & Hs & Ha). apply in_concat in Hb as (t & Ht & Hb).
  pose proof (Hi s Hs) as H1. pose proof (Hi t Ht) as H2.
  rewrite Forall_forall in H1, H2. auto.
Qed.

Lemma first_loop_agree input :
  is_input input ->
  Realm.forEach input Realm.updateRules Obj.empty
  = lift (forEach input updateRules Obj.empty).
Proof.
  intros Hi. apply (forEach_agree (fun _ => True)); [|trivial|exact I].
  intros arr s Harr _. apply updateRules_agree.
  unfold is_input in Hi. rewrite Forall_forall in Hi. auto.
Qed.

(** On an input of labels [getMasterRules] reads and writes own
    properties only. *)
Lemma getMasterRules_agree input :
  is_input input -> Realm.getMasterRules input = lift (getMasterRules input).
Proof.
  intros Hi. unfold Realm.getMasterRules, getMasterRules.
  rewrite (first_loop_agree input Hi).
  destruct (direct_rules_spec input) as (rules0 & Hrun0 & Hone0 & Hrel0).
  rewrite Hrun0. simpl. apply merge_pass_agree.
  intros a r Ha b Hb.
  assert (Hab : rel rules0 a b) by (apply (rel_keys _ _ _ Hone0); eauto).
  apply Hrel0 in Hab. now destruct (direct_label _ _ _ Hi Hab).
Qed.

(** The comparator on two labels. *)
Lemma recorded_label rules a b :
  is_label a -> is_label b ->
  Realm.recorded rules a b = Returns (recorded rules a b).
Proof.
  intros Ha Hb. unfold Realm.recorded, recorded.
  rewrite (read_rules_label rules a Ha).
  destruct (Obj.get rules a) as [r|]; [|reflexivity]. simpl.
  destruct (Obj.get r b); [reflexivity|].
  now rewrite (inherited_label b Hb).
Qed.

Lemma sortByRules_label rules a b :
  is_label a -> is_label b ->
  Realm.sortByRules rules a b = Returns (sortByRules rules a b).
Proof.
  intros Ha Hb. unfold Realm.sortByRules, sortByRules.
  rewrite (recorded_label rules a b Ha Hb). simpl.
  destruct (recorded rules a b); [reflexivity|].
  rewrite (recorded_label rules b a Hb Ha). simpl.
  now destruct (recorded rules b a).
Qed.

Lemma comparefn_label rules a b :
  is_label a -> is_label b ->
  Realm.comparefn rules a b = sortByRules rules a b.
Proof.
  intros Ha Hb. unfold Realm.comparefn.
  now rewrite (sortByRules_label rules a b Ha Hb).
Qed.

Lemma comparable_labels rules l :
  Forall is_label l -> Realm.comparable rules l = true.
Proof.
  intros Hl. rewrite Forall_forall in Hl. unfold Realm.comparable.
  apply forallb_forall. intros a Ha. apply forallb_forall. intros b Hb.
  now rewrite (sortByRules_label rules a b (Hl a Ha) (Hl b Hb)).
Qed.

Lemma collect_agree input :
  is_input input -> Realm.collect input = collect input.
Proof.
  unfold Realm.collect, collect. generalize (@Obj.empty Z).
  induction input as [|arr input IH]; intros uniq Hi; [reflexivity|].
  inversion Hi as [|? ? Harr Hrest]; subst. simpl.
  assert (E : forall u,
             fold_left (fun uniq elem => Realm.assign uniq elem 1%Z) arr u
             = fold_left (fun uniq elem => Obj.set uniq elem 1%Z) arr u).
  { clear IH Hi Hrest. induction arr as [|x arr IHa]; intros u; [reflexivity|].
    inversion Harr; subst. simpl. rewrite assign_label by assumption.
    now apply IHa. }
  rewrite E. now apply IH.
Qed.

Lemma labels_label input x :
  is_input input -> In x (labels input) -> is_label x.
Proof.
  intros Hi Hx. unfold labels in Hx. apply in_concat in Hx as (s & Hs & Hx).
  unfold is_input in Hi. rewrite Forall_forall in Hi.
  pose proof (Hi s Hs) as H. rewrite Forall_forall in H. auto.
Qed.

(** A run of [preserveOrder] on an input of labels: the rules are those of
    [getMasterRules], and the engine sorts the keys of [uniq] with a
    comparator that answers as [sortByRules] on them. *)
Lemma preserveOrder_labels_run {E : ArraySort} input :
  is_input input ->
  exists rules,
    getMasterRules input = Some rules
    /\ Realm.getMasterRules input = Returns rules
    /\ Realm.preserveOrder input =
       Returns (array_sort (Realm.comparefn rules) (Obj.keys (collect input)))
    /\ forall a b, In a (labels input) -> In b (labels input) ->
         Realm.comparefn rules a b = sortByRules rules a b.
Proof.
  intros Hi. destruct (getMasterRules_spec input) as (rules & Hrun & _).
  exists rules. split; [exact Hrun|].
  assert (HR : Realm.getMasterRules input = Returns rules)
    by (rewrite (getMasterRules_agree input Hi), Hrun; reflexivity).
  split; [exact HR|]. split.
  - unfold Realm.preserveOrder. rewrite HR. simpl.
    rewrite (collect_agree input Hi), comparable_labels; [reflexivity|].
    apply Forall_forall. intros x Hx. apply (labels_label input x Hi).
    now apply (proj2 (collect_spec input)).
  - intros a b Ha Hb. apply comparefn_label; eapply labels_label; eauto.
Qed.


(* ================================================================== *)
(** ** The comparator is asked about the elements of the array only *)

Section Local.

Variables cmp cmp' : string -> string -> Z.

Lemma insert_left_local element rev_done :
  (forall x, In x rev_done -> cmp x element = cmp' x element) ->
  insert_left cmp element rev_done = insert_left cmp' element rev_done.
Proof.
  induction rev_done as [|tmp rest IH]; intros H; simpl; [reflexivity|].
  rewrite (H tmp (or_introl eq_refl)).
  destruct (cmp' tmp element >? 0)%Z; [|reflexivity].
  f_equal. apply IH. intros x Hx. apply H. now right.
Qed.

Lemma InsertionSort_local a :
  (forall x y, In x a -> In y a -> cmp x y = cmp' x y) ->
  InsertionSort cmp a = InsertionSort cmp' a.
Proof.
  intros H. unfold InsertionSort. f_equal.
  assert (G : forall l done,
    (forall x y, In x (done ++ l) -> In y (done ++ l) -> cmp x y = cmp' x y) ->
    fold_left (fun rev_done element => insert_left cmp element rev_done) l done
    = fold_left (fun rev_done element => insert_left cmp' element rev_done)
        l done).
  { induction l as [|e l IH]; intros done Hd; simpl; [reflexivity|].
    rewrite (insert_left_local e done).
    - apply IH. intros x y Hx Hy. apply Hd.
      + apply in_app_or in Hx as [Hx|Hx].
        * apply (Permutation_in _
                   (Permutation_sym (insert_left_perm cmp' e done))) in Hx.
          apply in_or_app. simpl in *. tauto.
        * apply in_or_app. simpl. tauto.
      + apply in_app_or in Hy as [Hy|Hy].
        * apply (Permutation_in _
                   (Permutation_sym (insert_left_perm cmp' e done))) in Hy.
          apply in_or_app. simpl in *. tauto.
        * apply in_or_app. simpl. tauto.
    - intros x Hx. apply Hd; apply in_or_app; simpl; tauto. }
  apply G. exact H.
Qed.

Lemma run_length_local desc prev rest :
  (forall x y, In x (prev :: rest) -> In y (prev :: rest) ->
     cmp x y = cmp' x y) ->
  run_length cmp desc prev rest = run_length cmp' desc prev rest.
Proof.
  revert prev. induction rest as [|cur rest IH]; intros prev H; simpl;
    [reflexivity|].
  rewrite (H cur prev) by (simpl; auto).
  destruct (if desc then _ else _); [|reflexivity].
  f_equal. apply IH. intros x y Hx Hy. apply H; now right.
Qed.

Lemma CountAndMakeRun_local a :
  (forall x y, In x a -> In y a -> cmp x y = cmp' x y) ->
  CountAndMakeRun cmp a = CountAndMakeRun cmp' a.
Proof.
  intros H. unfold CountAndMakeRun.
  destruct a as [|x0 [|x1 rest]]; [reflexivity..|].
  rewrite (H x1 x0) by (simpl; auto).
  rewrite (run_length_local _ x1 rest); [reflexivity|].
  intros x y Hx Hy. apply H; now right.
Qed.

Lemma insertion_point_local fuel pivot a left right :
  right <= List.length a ->
  (forall y, In y a -> cmp pivot y = cmp' pivot y) ->
  insertion_point fuel cmp pivot a left right
  = insertion_point fuel cmp' pivot a left right.
Proof.
  intros Hr H. revert left right Hr.
  induction fuel as [|fuel IH]; intros left right Hr; cbn [insertion_point];
    [reflexivity|].
  destruct (Nat.ltb_spec left right) as [Hlt|]; [|reflexivity].
  assert (Hdiv : (right - left) / 2 < right - left)
    by (apply Nat.div_lt; lia).
  rewrite (H (at_index a (left + (right - left) / 2)))
    by (apply at_index_in; lia).
  destruct (cmp' pivot _ <? 0)%Z; apply IH; lia.
Qed.

Lemma binary_insert_local a start :
  start < List.length a ->
  (forall x y, In x a -> In y a -> cmp x y = cmp' x y) ->
  binary_insert cmp a start = binary_insert cmp' a start.
Proof.
  intros Hs H. unfold binary_insert.
  rewrite (insertion_point_local start (at_index a start) a 0 start);
    [reflexivity|lia|].
  intros y Hy. apply H; [now apply at_index_in|assumption].
Qed.

Lemma TimSortShort_local a :
  (forall x y, In x a -> In y a -> cmp x y = cmp' x y) ->
  TimSortShort cmp a = TimSortShort cmp' a.
Proof.
  intros H. unfold TimSortShort.
  rewrite (CountAndMakeRun_local a H).
  destruct (CountAndMakeRun_perm cmp' a) as [Hp Hn].
  destruct (CountAndMakeRun cmp' a) as [a1 n]. simpl in Hp, Hn.
  unfold range.
  assert (G : forall m k b, k + m = List.length b ->
            (forall x y, In x b -> In y b -> cmp x y = cmp' x y) ->
            fold_left (binary_insert cmp) (seq k m) b
            = fold_left (binary_insert cmp') (seq k m) b).
  { induction m as [|m IH]; intros k b Hk Hb; simpl; [reflexivity|].
    rewrite (binary_insert_local b k) by (lia || assumption).
    assert (Hq : Permutation b (binary_insert cmp' b k))
      by (apply binary_insert_perm; lia).
    apply IH.
    - rewrite <- (Permutation_length Hq). lia.
    - intros x y Hx Hy.
      apply Hb; eapply Permutation_in;
        try (apply Permutation_sym; exact Hq); assumption. }
  rewrite (Permutation_length Hp). apply G.
  - apply Permutation_length in Hp. lia.
  - intros x y Hx Hy.
    apply H; eapply Permutation_in;
      try (apply Permutation_sym; exact Hp); assumption.
Qed.

End Local.

#[export] Instance v8_insertion_local : ArraySortLocal v8_insertion.
Proof. intros cmp cmp' l. apply InsertionSort_local. Qed.

#[export] Instance v8_timsort_local : ArraySortLocal v8_timsort.
Proof. intros cmp cmp' l. apply TimSortShort_local. Qed.

(** On an input of labels the whole program reads and writes own
    properties only: what the functions of the first part return is what
    the program returns. *)
Lemma preserveOrder_agree {E : ArraySort} {EL : ArraySortLocal E} input :
  is_input input ->
  Realm.preserveOrder input = lift (preserveOrder input).
Proof.
  intros Hi.
  destruct (preserveOrder_labels_run input Hi)
    as (rules & Hbase & _ & Hout & Hcmp).
  rewrite Hout. unfold preserveOrder. rewrite Hbase. simpl. f_equal.
  apply array_sort_local. intros a b Ha Hb.
  apply Hcmp; now apply (proj2 (collect_spec input)).
Qed.

(* ================================================================== *)
(** ** Deciding the validity of any input *)


Lemma valid_well_formed input :
  valid_input input <-> is_input input /\ well_formed input.
Proof.
  split.
  - intros [Hl Hn Hs Hc Ha]. split; [assumption|]. now split.
  - intros [Hl [Hn Hs Hc Ha]]. now split.
Qed.


(* ================================================================== *)
(** ** The tests of the repository *)

(** The embedding passes the assertions of the test suite, with either
    sorting routine. *)

Example test_updateRules_input1 :
  updateRules ["a";"b"] Obj.empty = Some [("a", [("b", 1%Z)])].
Proof. reflexivity. Qed.

Example test_updateRules_input2 :
  forEach input2_a updateRules Obj.empty
  = Some [("b", [("c", 1%Z)]); ("a", [("c", 1%Z); ("b", 1%Z)])].
Proof. reflexivity. Qed.

Example test_getMasterRules_input2 :
  getMasterRules input2_a
  = Some [("b", [("c", 1%Z)]); ("a", [("c", 1%Z); ("b", 1%Z)])].
Proof. reflexivity. Qed.

Example test_getMasterRules_input3 :
  getMasterRules input3
  = Some [("a", [("b", 1%Z); ("c", 1%Z); ("d", 1%Z)]);
          ("b", [("c", 1%Z); ("d", 1%Z)]);
          ("c", [("d", 1%Z)])].
Proof. reflexivity. Qed.

(** With labels that are array indices the keys come out in numeric
    order, whatever the order of their creation. *)
Example test_getMasterRules_input4 :
  getMasterRules input4
  = Some [("1", [("3", 1%Z); ("6", 1%Z); ("9", 1%Z)]);
          ("3", [("6", 1%Z); ("9", 1%Z)]);
          ("6", [("9", 1%Z)])].
Proof. reflexivity. Qed.

Example test_uniq_input4 : Obj.keys (collect input4) = ["1";"3";"6";"9"].
Proof. reflexivity. Qed.

Example test_preserveOrder_insertion :
  preserveOrder (E := v8_insertion) input1 = Some ["a";"b";"c"]
  /\ preserveOrder (E := v8_insertion) input2_a = Some ["a";"b";"c"]
  /\ preserveOrder (E := v8_insertion) input2_d = Some ["a";"b";"c"]
  /\ preserveOrder (E := v8_insertion) input3 = Some ["a";"b";"c";"d"]
  /\ preserveOrder (E := v8_insertion) input4 = Some ["1";"3";"6";"9"]
  /\ preserveOrder (E := v8_insertion) input5
     = Some ["a";"b";"c";"d";"e";"f";"g"]
  /\ preserveOrder (E := v8_insertion) input6 = Some ["a";"b";"c";"d";"e"].
Proof. repeat split; vm_compute; reflexivity. Qed.

Example test_preserveOrder_timsort :
  preserveOrder (E := v8_timsort) input1 = Some ["a";"b";"c"]
  /\ preserveOrder (E := v8_timsort) input2_a = Some ["a";"b";"c"]
  /\ preserveOrder (E := v8_timsort) input2_d = Some ["a";"b";"c"]
  /\ preserveOrder (E := v8_timsort) input3 = Some ["a";"b";"c";"d"]
  /\ preserveOrder (E := v8_timsort) input4 = Some ["1";"3";"6";"9"]
  /\ preserveOrder (E := v8_timsort) input5
     = Some ["a";"b";"c";"d";"e";"f";"g"]
  /\ preserveOrder (E := v8_timsort) input6 = Some ["a";"b";"c";"d";"e"].
Proof. repeat split; vm_compute; reflexivity. Qed.

(** Where the second description stops: with [__proto__] or constructor
    in front of another label the program writes the mark on
    [Object.prototype] or on the function [Object]. *)
Example test_realm_stops :
  Realm.getMasterRules [["__proto__";"a"]] = Unmodelled
  /\ Realm.getMasterRules [["constructor";"a"];["a";"b"]] = Unmodelled.
Proof. split; reflexivity. Qed.

(** The second description on the inputs of the tests. *)
Example test_realm_preserveOrder :
  Realm.preserveOrder (E := v8_insertion) input1 = Returns ["a";"b";"c"]
  /\ Realm.preserveOrder (E := v8_timsort) input3 = Returns ["a";"b";"c";"d"]
  /\ Realm.preserveOrder (E := v8_insertion) input4 = Returns ["1";"3";"6";"9"]
  /\ Realm.preserveOrder (E := v8_timsort) input5
     = Returns ["a";"b";"c";"d";"e";"f";"g"].
Proof. repeat split; vm_compute; reflexivity. Qed.

(* ================================================================== *)
(** ** The claims *)

Lemma input7_valid : valid_input input7.
Proof. apply (valid_inputb_spec ["e";"d";"c";"b";"a"]). reflexivity. Qed.

Lemma chain_rotated_valid : valid_input chain_rotated.
Proof. apply (valid_inputb_spec ["e";"d";"c";"b";"a"]). reflexivity. Qed.

(** C1 (fails on the code). On the valid input [input7] the table that
    [getMasterRules] returns records e before d and d before b, and does
    not record e before b: one merge pass over the keys does not close the
    relation. *)
Theorem getMasterRules_not_closed :
  valid_input input7
  /\ exists rules,
       getMasterRules input7 = Some rules
       /\ rel rules "e" "d" /\ rel rules "d" "b" /\ ~ rel rules "e" "b".
Proof.
  split; [exact input7_valid|].
  eexists. split; [vm_compute; reflexivity|].
  repeat split; try reflexivity. vm_compute. discriminate.
Qed.

(** C2 (fails on the code). [chain_rotated] is valid and holds the
    sequence e, d; both sorting routines return d, c, b, a, e, where e
    stands after d. *)
Theorem preserveOrder_breaks_sequence_order :
  valid_input chain_rotated
  /\ In ["e";"d"] chain_rotated
  /\ precedes_in ["e";"d"] "e" "d"
  /\ preserveOrder (E := v8_insertion) chain_rotated
       = Some ["d";"c";"b";"a";"e"]
  /\ preserveOrder (E := v8_timsort) chain_rotated
       = Some ["d";"c";"b";"a";"e"]
  /\ ~ precedes_in ["d";"c";"b";"a";"e"] "e" "d".
Proof.
  split; [exact chain_rotated_valid|].
  split; [simpl; auto 10|].
  split; [precedes_literal|].
  split; [vm_compute; reflexivity|].
  split; [vm_compute; reflexivity|].
  precedes_literal.
Qed.

(** The same failure without a missing rule: here the table is closed, and
    the comparator answers 0 for the unrelated pairs b, c and c, d, so that
    neither routine ever compares d with b. *)
Lemma preserveOrder_breaks_unrelated :
  valid_input unrelated_bridge
  /\ precedes_in ["d";"b"] "d" "b"
  /\ preserveOrder (E := v8_insertion) unrelated_bridge
       = Some ["a";"b";"c";"d"]
  /\ preserveOrder (E := v8_timsort) unrelated_bridge
       = Some ["a";"b";"c";"d"]
  /\ ~ precedes_in ["a";"b";"c";"d"] "d" "b".
Proof.
  split; [apply (valid_inputb_spec ["a";"d";"b";"c"]); reflexivity|].
  split; [precedes_literal|].
  split; [vm_compute; reflexivity|].
  split; [vm_compute; reflexivity|].
  precedes_literal.
Qed.

(** C5 (fails on the code). In [chain_rotated] the sequence e, d puts e
    before d and the sequence d, c puts d before c; no sequence holds the
    three labels; the output has e after d and after c. *)
Theorem preserveOrder_breaks_stitched_chain :
  valid_input chain_rotated
  /\ In ["e";"d"] chain_rotated /\ precedes_in ["e";"d"] "e" "d"
  /\ In ["d";"c"] chain_rotated /\ precedes_in ["d";"c"] "d" "c"
  /\ (forall s, In s chain_rotated -> ~ (In "e" s /\ In "d" s /\ In "c" s))
  /\ preserveOrder (E := v8_insertion) chain_rotated
       = Some ["d";"c";"b";"a";"e"]
  /\ preserveOrder (E := v8_timsort) chain_rotated
       = Some ["d";"c";"b";"a";"e"]
  /\ ~ precedes_in ["d";"c";"b";"a";"e"] "e" "d"
  /\ ~ precedes_in ["d";"c";"b";"a";"e"] "e" "c".
Proof.
  split; [exact chain_rotated_valid|].
  split; [simpl; auto 10|]. split; [precedes_literal|].
  split; [simpl; auto 10|]. split; [precedes_literal|].
  split.
  { intros s Hs (He & Hd & Hc). simpl in Hs.
    repeat (destruct Hs as [<-|Hs]; [simpl in *; intuition discriminate|]).
    exact Hs. }
  split; [vm_compute; reflexivity|].
  split; [vm_compute; reflexivity|].
  split; precedes_literal.
Qed.




(** C6. [preserveOrder] of [["e","d"],["d","c"],["c","b"],["b","a"]] is
    ["e","d","c","b","a"], with either sorting routine. *)
Theorem preserveOrder_input7 :
  preserveOrder (E := v8_insertion) input7 = Some ["e";"d";"c";"b";"a"]
  /\ preserveOrder (E := v8_timsort) input7 = Some ["e";"d";"c";"b";"a"].
Proof. split; vm_compute; reflexivity. Qed.







(** The comparator is antisymmetric as soon as the relation is
    asymmetric. *)
Lemma sortByRules_antisym rules :
  (forall a b, rel rules a b -> ~ rel rules b a) ->
  forall a b, sortByRules rules b a = (- sortByRules rules a b)%Z.
Proof.
  intros Hasym a b. unfold sortByRules.
  destruct (recorded rules a b) eqn:Eab; destruct (recorded rules b a) eqn:Eba;
    try reflexivity.
  exfalso. exact (Hasym a b Eab Eba).
Qed.







(* ================================================================== *)
(** ** Permuting the input *)

Lemma direct_perm input input' a b :
  Permutation input input' -> direct input a b -> direct input' a b.
Proof.
  intros Hp (s & Hs & H). exists s. split; [|assumption].
  eapply Permutation_in; eassumption.
Qed.

Lemma labels_perm input input' x :
  Permutation input input' -> In x (labels input) -> In x (labels input').
Proof.
  unfold labels. intros Hp H. apply in_concat in H as (s & Hs & Hx).
  apply in_concat. exists s. split; [|assumption].
  eapply Permutation_in; eassumption.
Qed.

(** When every two labels share a sequence, the direct rules of a valid
    input are already closed. *)
Lemma complete_closed input :
  valid_input input -> pairwise_complete input ->
  forall a b, clos_trans string (direct input) a b -> direct input a b.
Proof.
  intros Hv Hc a b Hab.
  assert (Hlab : In a (labels input) /\ In b (labels input)).
  { clear Hc. induction Hab as [a b H|a b c _ [Ha _] _ [_ Hc]].
    - now apply direct_labels.
    - auto. }
  destruct Hlab as [Ha Hb].
  destruct (string_dec a b) as [->|Hne].
  - exfalso. exact (valid_acyclic _ Hv b Hab).
  - destruct (Hc a b Ha Hb Hne) as [H|H]; [assumption|].
    exfalso. apply (valid_acyclic _ Hv a).
    apply t_trans with b; [assumption|now apply t_step].
Qed.

Lemma sortByRules_lt rules a b :
  (sortByRules rules a b < 0)%Z <-> rel rules a b.
Proof.
  unfold sortByRules, rel.
  destruct (recorded rules a b); [split; [reflexivity|lia]|].
  destruct (recorded rules b a); split; intros H; lia || discriminate.
Qed.

Lemma sortByRules_gt rules a b :
  (forall a b, rel rules a b -> ~ rel rules b a) ->
  ((sortByRules rules a b > 0)%Z <-> rel rules b a).
Proof.
  intros Hasym. rewrite (sortByRules_antisym rules Hasym b a).
  rewrite <- sortByRules_lt. lia.
Qed.

(** On such an input the comparator is a consistent comparison of the
    labels, and it answers 0 on equal labels only. *)
Lemma complete_consistent input rules universe :
  valid_input input -> pairwise_complete input ->
  (forall a b, rel rules a b <-> direct input a b) ->
  (forall x, In x universe -> In x (labels input)) ->
  consistent (sortByRules rules) universe
  /\ forall a b, In a universe -> In b universe ->
       sortByRules rules a b = 0%Z -> a = b.
Proof.
  intros Hv Hc Hrel Huni.
  assert (Hirr : forall a, ~ rel rules a a).
  { intros a H. apply Hrel in H. apply (valid_acyclic _ Hv a). now apply t_step. }
  assert (Hasym : forall a b, rel rules a b -> ~ rel rules b a).
  { intros a b Hab Hba. apply Hrel in Hab, Hba.
    exact (valid_consistent _ Hv a b Hab Hba). }
  assert (Htrans : forall a b c, rel rules a b -> rel rules b c -> rel rules a c).
  { intros a b c Hab Hbc. apply Hrel in Hab, Hbc. apply Hrel.
    apply complete_closed; auto.
    apply t_trans with b; now apply t_step. }
  assert (Hzero : forall a b, In a universe -> In b universe ->
                    sortByRules rules a b = 0%Z -> a = b).
  { intros a b Ha Hb H0. destruct (string_dec a b) as [|Hne]; [assumption|].
    exfalso. destruct (Hc a b (Huni a Ha) (Huni b Hb) Hne) as [H|H];
      apply Hrel in H.
    - apply sortByRules_lt in H. lia.
    - apply (sortByRules_gt rules a b Hasym) in H. lia. }
  assert (Hrefl : forall a, sortByRules rules a a = 0%Z).
  { intros a. pose proof (sortByRules_antisym rules Hasym a a). lia. }
  split; [|exact Hzero]. split.
  - auto.
  - intros a b Ha Hb H0. rewrite (Hzero a b Ha Hb H0). apply Hrefl.
  - intros a b c Ha Hb Hc' H1 H2.
    rewrite (Hzero a b Ha Hb H1), (Hzero b c Hb Hc' H2). apply Hrefl.
  - intros a b c _ _ _ H1 H2. apply sortByRules_lt in H1, H2.
    apply sortByRules_lt. eauto.
  - intros a b c _ _ _ H1 H2.
    apply (sortByRules_gt rules _ _ Hasym) in H1, H2.
    apply (sortByRules_gt rules _ _ Hasym). eauto.
  - intros a b _ _. rewrite sortByRules_lt, (sortByRules_gt rules b a Hasym).
    reflexivity.
Qed.

(** A list has at most one sorted arrangement under an antisymmetric
    order. *)
Lemma sorted_unique (R : string -> string -> Prop) l l' :
  (forall a b, In a l -> In b l -> R a b -> R b a -> a = b) ->
  StronglySorted R l -> StronglySorted R l' -> Permutation l l' -> l = l'.
Proof.
  revert l'. induction l as [|x t IH]; intros l' Hanti Hs Hs' Hp.
  - apply Permutation_nil in Hp. now subst.
  - destruct l' as [|y t'].
    { apply Permutation_sym, Permutation_nil in Hp. discriminate. }
    apply StronglySorted_inv in Hs as [Hs Hx].
    apply StronglySorted_inv in Hs' as [Hs' Hy].
    rewrite Forall_forall in Hx, Hy.
    assert (Exy : x = y).
    { destruct (string_dec x y) as [|Hne]; [assumption|].
      assert (Hxl' : In x (y :: t'))
        by (eapply Permutation_in; [eassumption|now left]).
      assert (Hyl : In y (x :: t))
        by (eapply Permutation_in; [apply Permutation_sym; eassumption|now left]).
      destruct Hxl' as [|Hxt']; [congruence|].
      destruct Hyl as [|Hyt]; [congruence|].
      apply Hanti; simpl; auto. }
    subst y. f_equal. apply IH; auto.
    + intros a b Ha Hb. apply Hanti; now right.
    + eapply Permutation_cons_inv; eassumption.
Qed.

Lemma sorted_ext (R R' : string -> string -> Prop) l :
  (forall a b, In a l -> In b l -> R a b -> R' a b) ->
  StronglySorted R l -> StronglySorted R' l.
Proof.
  intros H Hs. induction Hs as [|x l Hs IH Hall]; constructor.
  - apply IH. intros a b Ha Hb. apply H; now right.
  - rewrite Forall_forall in Hall |- *. intros y Hy.
    apply H; simpl; auto.
Qed.


Lemma complete_perm input input' :
  Permutation input input' -> pairwise_complete input ->
  pairwise_complete input'.
Proof.
  intros Hp Hc a b Ha Hb Hne.
  pose proof (Permutation_sym Hp) as Hp'.
  destruct (Hc a b (labels_perm _ _ _ Hp' Ha) (labels_perm _ _ _ Hp' Hb) Hne);
    [left|right]; eapply direct_perm; eassumption.
Qed.

(** On such an input the output lists the labels along the direct
    rules. *)
Lemma preserveOrder_sorted {E : ArraySort} {ES : ArraySortSpec E} input :
  valid_input input -> pairwise_complete input ->
  exists out,
    preserveOrder input = Some out
    /\ NoDup out
    /\ (forall x, In x out <-> In x (labels input))
    /\ StronglySorted (fun a b => a = b \/ direct input a b) out.
Proof.
  intros Hv Hc.
  destruct (preserveOrder_labels input) as (out & Hrun & Hnd & Hin).
  exists out. split; [exact Hrun|]. split; [exact Hnd|]. split; [exact Hin|].
  destruct (getMasterRules_spec input) as (rules & Hrules & _ & Hd & Hsound & _).
  assert (Hrel : forall a b, rel rules a b <-> direct input a b).
  { intros a b. split; [|apply Hd].
    intros H. apply complete_closed; auto. }
  destruct (collect_spec input) as [_ Hkeys].
  destruct (complete_consistent input rules (Obj.keys (collect input))
              Hv Hc Hrel) as [Hcons Hzero].
  { intros x. apply Hkeys. }
  pose proof (array_sort_sorted _ _ Hcons) as Hsorted.
  pose proof (array_sort_perm (sortByRules rules) (Obj.keys (collect input)))
    as Hperm.
  unfold preserveOrder in Hrun. rewrite Hrules in Hrun. simpl in Hrun.
  injection Hrun as <-.
  revert Hsorted. apply sorted_ext. intros a b Ha Hb Hle.
  apply Permutation_sym in Hperm.
  apply (Permutation_in _ Hperm) in Ha, Hb.
  destruct (Z.eq_dec (sortByRules rules a b) 0) as [H0|Hn].
  - left. now apply Hzero.
  - right. apply Hrel, sortByRules_lt. lia.
Qed.








(** Two direct rules in a row are enough for the table to order two
    labels: the merge pass stitches them, whatever the order of the
    sequences. *)
Lemma two_links_total input rules :
  getMasterRules input = Some rules ->
  (forall a b, In a (labels input) -> In b (labels input) -> a <> b ->
     (direct input a b \/ exists m, direct input a m /\ direct input m b)
     \/ (direct input b a \/ exists m, direct input b m /\ direct input m a)) ->
  relates_all rules (labels input).
Proof.
  intros Hrun H a b Ha Hb Hne.
  destruct (getMasterRules_spec input) as (rules' & Hrun' & _ & Hd & _ & H2).
  assert (rules' = rules) by congruence. subst rules'.
  destruct (H a b Ha Hb Hne) as [[H1|(m & H1 & H3)]|[H1|(m & H1 & H3)]];
    [left|left|right|right]; eauto.
Qed.




(* ================================================================== *)
(** ** More on [updateRules] *)

Lemma set_same {V : Type} (o : Obj.t V) k v :
  Obj.get o k = Some v -> Obj.set o k v = o.
Proof.
  intros H. unfold Obj.set.
  assert (Hhas : Obj.has o k = true) by (apply ObjFacts.has_get; eauto).
  rewrite Hhas. clear Hhas.
  induction o as [|[k0 v0] o IH]; simpl in *; [discriminate|].
  destruct (String.eqb_spec k k0) as [->|Hne].
  - now injection H as ->.
  - now rewrite IH.
Qed.

Lemma forEach_fixed {A S : Type} (xs : list A) (body : A -> S -> option S) s :
  (forall x, In x xs -> body x s = Some s) -> forEach xs body s = Some s.
Proof.
  induction xs as [|x xs IH]; intros H; simpl; [reflexivity|].
  rewrite (H x) by now left. simpl. apply IH. intros y Hy. apply H. now right.
Qed.

Lemma marked_mark rules curr temp r a b :
  Obj.get rules curr = Some r ->
  (marked (Obj.set rules curr (Obj.set r temp 1%Z)) a b <->
   marked rules a b \/ (a = curr /\ b = temp)).
Proof.
  intros Hr. unfold marked. rewrite ObjFacts.get_set.
  destruct (String.eqb_spec a curr) as [->|Hne].
  - split.
    + intros (r' & [= <-] & Hb). rewrite ObjFacts.get_set in Hb.
      destruct (String.eqb_spec b temp) as [->|Hb']; [auto|].
      left. eauto.
    + intros [(r' & Hr' & Hb)|[_ ->]]; eexists; (split; [reflexivity|]);
        rewrite ObjFacts.get_set.
      * destruct (String.eqb b temp); [reflexivity|congruence].
      * now rewrite String.eqb_refl.
  - split; [intros H; left; exact H|].
    intros [H|[Ha _]]; [exact H|contradiction].
Qed.

Lemma marked_create rules curr a b :
  Obj.has rules curr = false ->
  (marked (Obj.set rules curr Obj.empty) a b <-> marked rules a b).
Proof.
  intros Hn. apply ObjFacts.has_false in Hn.
  unfold marked. rewrite ObjFacts.get_set.
  destruct (String.eqb_spec a curr) as [->|Hne]; [|reflexivity].
  rewrite Hn. split; intros (r & Hr & Hb); [|discriminate].
  injection Hr as <-. discriminate.
Qed.

(** The inner loop on any table that holds [curr]. *)
Lemma mark_later_full arr i l rules0 :
  let curr := at_index arr i in
  Obj.has rules0 curr = true ->
  exists rules',
    forEach (range (i + 1) l) (fun j rules =>
      let temp := at_index arr j in
      r <- Obj.get rules curr ;;
      Some (Obj.set rules curr (Obj.set r temp 1%Z))) rules0 = Some rules'
    /\ Obj.keys rules' = Obj.keys rules0
    /\ (forall a b, rel rules' a b <->
         rel rules0 a b \/ (a = curr /\ exists j, i < j < l /\ b = at_index arr j))
    /\ (forall a b, marked rules' a b <->
         marked rules0 a b \/ (a = curr /\ exists j, i < j < l /\ b = at_index arr j)).
Proof.
  intros curr Hhas.
  pose (added := fun (done : list nat) (a b : string) =>
    a = curr /\ exists j, In j done /\ b = at_index arr j).
  destruct (forEach_invariant (fun done rules =>
      Obj.has rules curr = true
      /\ Obj.keys rules = Obj.keys rules0
      /\ (forall a b, rel rules a b <-> rel rules0 a b \/ added done a b)
      /\ (forall a b, marked rules a b <-> marked rules0 a b \/ added done a b))
    (range (i + 1) l)
    (fun j rules =>
      let temp := at_index arr j in
      r <- Obj.get rules curr ;;
      Some (Obj.set rules curr (Obj.set r temp 1%Z)))) with (s := rules0)
    as (rules' & Hrun & _ & Hkeys & Hrel & Hmk).
  - intros done j rest rules Hsplit (Hcur & Hkeys & Hrel & Hmk).
    pose proof Hcur as Hcur'.
    apply ObjFacts.has_get in Hcur as [r Hr]. cbv zeta. rewrite Hr. simpl.
    assert (Hadd : forall a b, added (done ++ [j]) a b <->
              added done a b \/ (a = curr /\ b = at_index arr j)).
    { intros a b. unfold added. split.
      - intros (Ha & j' & Hj' & Hb).
        apply in_app_iff in Hj' as [Hj'|[<-|[]]]; eauto 6.
      - intros [(Ha & j' & Hj' & Hb)|(Ha & Hb)]; (split; [assumption|]).
        + exists j'. rewrite in_app_iff. auto.
        + exists j. rewrite in_app_iff. simpl. auto. }
    eexists. split; [reflexivity|]. split; [|split; [|split]].
    + apply ObjFacts.has_get. rewrite ObjFacts.get_set_same. eauto.
    + rewrite ObjFacts.keys_set_old; assumption.
    + intros a b. rewrite rel_mark by eassumption. rewrite Hrel, Hadd. tauto.
    + intros a b. rewrite marked_mark by eassumption. rewrite Hmk, Hadd. tauto.
  - repeat split; auto; try tauto; intros [H|(_ & j & [] & _)]; assumption.
  - exists rules'. split; [exact Hrun|]. split; [exact Hkeys|].
    assert (Hadd : forall a b, added (range (i + 1) l) a b <->
              (a = curr /\ exists j, i < j < l /\ b = at_index arr j)).
    { intros a b. unfold added. split; intros (Ha & j & Hj & Hb);
        (split; [assumption|]); exists j; (split; [|assumption]).
      - apply in_range in Hj. lia.
      - apply in_range. lia. }
    split; intros a b; [rewrite Hrel|rewrite Hmk]; rewrite Hadd; reflexivity.
Qed.

(** [updateRules] on any table: what it adds to the relation, to the keys
    and to the marks. *)
Lemma updateRules_full arr rules0 :
  exists rules',
    updateRules arr rules0 = Some rules'
    /\ (forall a b, rel rules' a b <-> rel rules0 a b \/ precedes_in arr a b)
    /\ (forall k, In k (Obj.keys rules') <->
          In k (Obj.keys rules0) \/ exists b, precedes_in arr k b)
    /\ (forall a b, marked rules' a b <->
          marked rules0 a b \/ precedes_in arr a b).
Proof.
  unfold updateRules.
  destruct (Nat.leb_spec (List.length arr) 1) as [Hshort|Hlong].
  - assert (Hno : forall a b, ~ precedes_in arr a b).
    { intros a b H. apply precedes_in_at_index in H as (i & j & Hij & _). lia. }
    exists rules0. split; [reflexivity|].
    split; [|split]; intros; split; auto; intros [H|H]; auto.
    + now apply Hno in H.
    + destruct H as [b H]. now apply Hno in H.
    + now apply Hno in H.
  - set (l := List.length arr). cbv zeta.
    pose (added := fun (done : list nat) (a b : string) =>
      exists i j, In i done /\ i < j < l /\
                  a = at_index arr i /\ b = at_index arr j).
    match goal with
    | |- exists r, forEach ?xs ?body _ = _ /\ _ =>
        destruct (forEach_invariant (fun done rules =>
          (forall a b, rel rules a b <-> rel rules0 a b \/ added done a b)
          /\ (forall k, In k (Obj.keys rules) <->
                In k (Obj.keys rules0) \/ exists b, added done k b)
          /\ (forall a b, marked rules a b <->
                marked rules0 a b \/ added done a b)) xs body)
          with (s := rules0) as (rules' & Hrun & Hrel & Hkeys & Hmk)
    end.
    + intros done i rest rules Hsplit (Hrel & Hkeys & Hmk).
      assert (Hi : i + 1 < l).
      { apply in_middle, in_range in Hsplit. lia. }
      set (curr := at_index arr i).
      set (rules1 := if Obj.has rules curr then rules
                     else Obj.set rules curr Obj.empty).
      assert (Hhas1 : Obj.has rules1 curr = true).
      { subst rules1. destruct (Obj.has rules curr) eqn:E; [assumption|].
        apply ObjFacts.has_get. rewrite ObjFacts.get_set_same. eauto. }
      assert (Hrel1 : forall a b, rel rules1 a b <-> rel rules a b).
      { intros a b. subst rules1.
        destruct (Obj.has rules curr) eqn:E; [reflexivity|].
        now apply rel_create. }
      assert (Hmk1 : forall a b, marked rules1 a b <-> marked rules a b).
      { intros a b. subst rules1.
        destruct (Obj.has rules curr) eqn:E; [reflexivity|].
        now apply marked_create. }
      assert (Hkeys1 : forall k, In k (Obj.keys rules1) <->
                         k = curr \/ In k (Obj.keys rules)).
      { intros k. subst rules1. destruct (Obj.has rules curr) eqn:E.
        - split; [auto|]. intros [->|H]; [|exact H].
          apply ObjFacts.has_get in E as [r Hr].
          eapply ObjFacts.get_in_keys; eassumption.
        - apply ObjFacts.in_keys_set. }
      destruct (mark_later_full arr i l rules1 Hhas1)
        as (rules2 & Hrun2 & Hkeys2 & Hrel2 & Hmk2).
      assert (Hadd : forall a b, added (done ++ [i]) a b <->
                added done a b \/
                (a = curr /\ exists j, i < j < l /\ b = at_index arr j)).
      { intros a b. unfold added. split.
        - intros (i' & j & Hi' & Hj & Ha & Hb).
          apply in_app_iff in Hi' as [Hi'|[<-|[]]]; [left; eauto 8|].
          right. split; [assumption|]. eauto.
        - intros [(i' & j & Hi' & Hj & Ha & Hb)|(Ha & j & Hj & Hb)].
          + exists i', j. rewrite in_app_iff. auto.
          + exists i, j. rewrite in_app_iff. simpl. auto 6. }
      exists rules2. split; [exact Hrun2|]. split; [|split].
      * intros a b. rewrite Hrel2, Hrel1, Hrel, Hadd. tauto.
      * intros k. rewrite Hkeys2, Hkeys1, Hkeys. split.
        -- intros [->|[H|[b H]]]; auto.
           ++ right. exists (at_index arr (i + 1)). apply Hadd. right.
              split; [reflexivity|]. exists (i + 1). split; [lia|reflexivity].
           ++ right. exists b. apply Hadd. auto.
        -- intros [H|[b H]]; auto. apply Hadd in H as [H|[-> _]]; eauto.
      * intros a b. rewrite Hmk2, Hmk1, Hmk, Hadd. tauto.
    + split; [|split]; intros; split; auto.
      * intros [H|(i & j & [] & _)]. exact H.
      * intros [H|(b & i & j & [] & _)]. exact H.
      * intros [H|(i & j & [] & _)]. exact H.
    + assert (Hadd : forall a b, added (range 0 (l - 1)) a b <->
                precedes_in arr a b).
      { intros a b. rewrite precedes_in_at_index. unfold added.
        split; intros (i & j & H); exists i, j.
        - destruct H as (Hi & Hj & Ha & Hb). repeat split; auto; lia.
        - destruct H as (Hij & Ha & Hb). repeat split; auto; try lia.
          apply in_range. fold l in Hij. lia. }
      exists rules'. split; [exact Hrun|]. split; [|split].
      * intros a b. rewrite Hrel, Hadd. reflexivity.
      * intros k. rewrite Hkeys. split; intros [H|[b H]]; auto;
          right; exists b; now apply Hadd.
      * intros a b. rewrite Hmk, Hadd. reflexivity.
Qed.

(** A second run on a table that already holds the marks of the sequence
    writes every mark over itself. *)
Lemma updateRules_marked arr rules :
  (forall a b, precedes_in arr a b -> marked rules a b) ->
  updateRules arr rules = Some rules.
Proof.
  intros Hm. unfold updateRules.
  destruct (Nat.leb_spec (List.length arr) 1) as [Hshort|Hlong]; [reflexivity|].
  cbv zeta. apply forEach_fixed. intros i Hi. apply in_range in Hi.
  assert (Hpair : forall j, i < j < List.length arr ->
            marked rules (at_index arr i) (at_index arr j)).
  { intros j Hj. apply Hm, precedes_in_at_index. exists i, j. auto. }
  destruct (Hpair (i + 1)) as (r & Hr & _); [lia|].
  assert (Hhas : Obj.has rules (at_index arr i) = true)
    by (apply ObjFacts.has_get; eauto).
  rewrite Hhas. apply forEach_fixed. intros j Hj. apply in_range in Hj.
  destruct (Hpair j) as (r' & Hr' & Hb); [lia|].
  rewrite Hr'. simpl. now rewrite (set_same r' _ _ Hb), (set_same rules _ _ Hr').
Qed.

(* ================================================================== *)
(** ** More on [getMasterRules] *)




(* ================================================================== *)
(** ** More on [preserveOrder] *)

Lemma sorted_of_nth (R : string -> string -> Prop) l d :
  (forall i j, i < j < List.length l -> R (nth i l d) (nth j l d)) ->
  StronglySorted R l.
Proof.
  induction l as [|x l IH]; intros H; constructor.
  - apply IH. intros i j Hij. apply (H (S i) (S j)). simpl. lia.
  - apply Forall_forall. intros y Hy.
    apply (In_nth _ _ d) in Hy as (j & Hj & <-).
    apply (H 0 (S j)). simpl. lia.
Qed.

Lemma NoDup_position (l : list string) i j x :
  NoDup l -> nth_error l i = Some x -> nth_error l j = Some x -> i = j.
Proof.
  intros Hnd Hi Hj.
  apply (proj1 (NoDup_nth_error l) Hnd).
  - apply nth_error_Some. congruence.
  - congruence.
Qed.

(** A duplicate-free list that holds the labels and agrees with every
    sequence is the output, when every two labels share a sequence. *)
Lemma recovers_master {E : ArraySort} {ES : ArraySortSpec E} input m :
  valid_input input -> pairwise_complete input ->
  NoDup m -> (forall x, In x m <-> In x (labels input)) ->
  (forall a b, direct input a b -> precedes_in m a b) ->
  preserveOrder input = Some m.
Proof.
  intros Hv Hc Hnd Hm Hord.
  destruct (preserveOrder_sorted input Hv Hc) as (out & Hrun & Hnd' & Hin & Hs).
  rewrite Hrun. f_equal.
  apply (sorted_unique (fun a b => a = b \/ direct input a b)).
  - intros a b _ _ [Hab|Hab] [Hba|Hba]; auto.
    exfalso. exact (valid_consistent _ Hv a b Hab Hba).
  - exact Hs.
  - apply (sorted_of_nth _ m "undefined"). intros i j Hij. right.
    assert (Hi : nth_error m i = Some (nth i m "undefined"))
      by (apply nth_error_nth'; lia).
    assert (Hj : nth_error m j = Some (nth j m "undefined"))
      by (apply nth_error_nth'; lia).
    set (a := nth i m "undefined") in *. set (b := nth j m "undefined") in *.
    assert (Hne : a <> b).
    { intros Heq. rewrite <- Heq in Hj.
      pose proof (NoDup_position m i j a Hnd Hi Hj). lia. }
    destruct (Hc a b) as [H|H]; auto.
    + apply Hm. eapply nth_error_In; eassumption.
    + apply Hm. eapply nth_error_In; eassumption.
    + exfalso. apply Hord in H as (p & q & Hpq & Hp & Hq).
      pose proof (NoDup_position m p j b Hnd Hp Hj).
      pose proof (NoDup_position m q i a Hnd Hq Hi). lia.
  - apply NoDup_Permutation; auto.
    intros x. rewrite Hin, Hm. reflexivity.
Qed.

Lemma index_of_go x l n :
  (fix go (l : list string) (n : nat) : nat :=
     match l with
     | [] => n
     | y :: l' => if String.eqb x y then n else go l' (S n)
     end) l n = n + index_of x l.
Proof.
  unfold index_of. revert n. induction l as [|y l IH]; intros n; simpl; [lia|].
  destruct (String.eqb x y); [lia|].
  rewrite (IH (S n)), (IH 1). lia.
Qed.

Lemma index_of_cons x y l :
  index_of x (y :: l) = if String.eqb x y then 0 else S (index_of x l).
Proof.
  unfold index_of at 1. destruct (String.eqb x y) eqn:E; [reflexivity|].
  rewrite index_of_go. reflexivity.
Qed.

Lemma index_of_position l i x :
  NoDup l -> nth_error l i = Some x -> index_of x l = i.
Proof.
  revert i. induction l as [|y l IH]; intros i Hnd Hi; [now destruct i|].
  rewrite index_of_cons. inversion Hnd as [|? ? Hy Hnd']; subst.
  destruct i as [|i]; simpl in Hi.
  - injection Hi as ->. now rewrite String.eqb_refl.
  - destruct (String.eqb_spec x y) as [->|Hne].
    + exfalso. apply Hy. eapply nth_error_In; eassumption.
    + f_equal. now apply IH.
Qed.

(** One duplicate-free sequence of labels is a valid input in which every
    two labels share a sequence. *)
Lemma single_valid s :
  Forall is_label s -> NoDup s -> s <> [] ->
  valid_input [s] /\ pairwise_complete [s]
  /\ forall a b, direct [s] a b <-> precedes_in s a b.
Proof.
  intros Hl Hnd Hne.
  assert (Hd : forall a b, direct [s] a b <-> precedes_in s a b).
  { intros a b. split; [|intros H; exists s; simpl; auto].
    intros (s' & [<-|[]] & H). exact H. }
  destruct (ranked_acyclic [s] (fun a => index_of a s)) as [Hc Ha].
  { intros a b H. apply Hd in H as (i & j & Hij & Hi & Hj).
    rewrite (index_of_position s i a), (index_of_position s j b); auto. }
  split; [|split; [|exact Hd]].
  - split; auto.
    + repeat constructor. exact Hl.
    + discriminate.
  - intros a b Ha' Hb' Hab. unfold labels in Ha', Hb'. simpl in Ha', Hb'.
    rewrite app_nil_r in Ha', Hb'.
    apply In_nth_error in Ha' as [i Hi]. apply In_nth_error in Hb' as [j Hj].
    destruct (Nat.lt_trichotomy i j) as [H|[->|H]].
    + left. apply Hd. now exists i, j.
    + congruence.
    + right. apply Hd. now exists j, i.
Qed.

Lemma single_identity {E : ArraySort} {ES : ArraySortSpec E} s :
  Forall is_label s -> NoDup s -> preserveOrder [s] = Some s.
Proof.
  intros Hl Hnd. destruct s as [|x s].
  - unfold preserveOrder. simpl.
    pose proof (array_sort_perm (sortByRules Obj.empty) []) as Hp.
    apply Permutation_nil in Hp.
    change (Obj.keys (collect [[]])) with (@nil string).
    change (getMasterRules [[]]) with (Some (@Obj.empty (Obj.t Z))).
    simpl. now rewrite Hp.
  - destruct (single_valid (x :: s) Hl Hnd) as (Hv & Hc & Hd); [discriminate|].
    apply recovers_master; auto.
    + intros y. unfold labels. simpl. rewrite app_nil_r. reflexivity.
    + intros a b. apply Hd.
Qed.

(* ================================================================== *)
(** ** The order of the unique elements *)







(* ================================================================== *)
(** ** The sorting routines on any comparator *)

Section AnyComparator.

Variable cmp : string -> string -> Z.

(** *** An array whose neighbours are in order stays as it is *)

Lemma InsertionSort_fixed a :
  Sorted (fun x y => (cmp x y <= 0)%Z) a -> InsertionSort cmp a = a.
Proof.
  intros Hs. unfold InsertionSort.
  assert (G : forall l done,
    Sorted (fun x y => (cmp x y <= 0)%Z) l ->
    (forall t rest x l', done = t :: rest -> l = x :: l' -> (cmp t x <= 0)%Z) ->
    fold_left (fun rev_done element => insert_left cmp element rev_done) l done
    = rev l ++ done).
  { induction l as [|x l IH]; intros done Hl Hhd; simpl; [reflexivity|].
    apply Sorted_inv in Hl as [Hl Hx].
    assert (Hins : insert_left cmp x done = x :: done).
    { destruct done as [|t rest]; [reflexivity|]. simpl.
      specialize (Hhd t rest x l eq_refl eq_refl).
      destruct (Z.gtb_spec (cmp t x) 0); [lia|reflexivity]. }
    rewrite Hins, IH; [now rewrite <- app_assoc|assumption|].
    intros t rest y l' [= <- <-] ->. now apply HdRel_inv in Hx. }
  rewrite G; [now rewrite app_nil_r, rev_involutive|assumption|].
  intros t rest x l' [=].
Qed.

Lemma run_length_whole prev rest :
  Sorted (fun x y => (cmp y x >= 0)%Z) (prev :: rest) ->
  run_length cmp false prev rest = List.length rest.
Proof.
  revert prev. induction rest as [|cur rest IH]; intros prev Hs; simpl;
    [reflexivity|].
  apply Sorted_inv in Hs as [Hs Hhd]. apply HdRel_inv in Hhd.
  destruct (Z.geb_spec (cmp cur prev) 0); [|lia].
  now rewrite IH.
Qed.

Lemma TimSortShort_fixed a :
  Sorted (fun x y => (cmp y x >= 0)%Z) a -> TimSortShort cmp a = a.
Proof.
  intros Hs. unfold TimSortShort, CountAndMakeRun.
  destruct a as [|x0 [|x1 rest]]; [reflexivity..|].
  pose proof Hs as Hs'.
  apply Sorted_inv in Hs as [Hs Hhd]. apply HdRel_inv in Hhd.
  cbv zeta. destruct (Z.ltb_spec (cmp x1 x0) 0) as [|_]; [lia|].
  rewrite run_length_whole by assumption.
  unfold range. simpl List.length.
  replace (S (S (List.length rest)) - (2 + List.length rest)) with 0 by lia.
  reflexivity.
Qed.

(** *** Neighbours in the result are in order *)

Hypothesis cmp_antisym : forall a b, cmp b a = (- cmp a b)%Z.

Lemma adjacent_app_inv (Q : string -> string -> Prop) l1 l2 :
  Sorted Q (l1 ++ l2) -> Sorted Q l1 /\ Sorted Q l2.
Proof.
  induction l1 as [|x l1 IH]; simpl; intros H; [split; [constructor|exact H]|].
  apply Sorted_inv in H as [H Hhd]. destruct (IH H) as [H1 H2].
  split; [|exact H2]. constructor; [exact H1|].
  destruct l1; [constructor|]. simpl in Hhd. apply HdRel_inv in Hhd.
  now constructor.
Qed.

Lemma adjacent_app (Q : string -> string -> Prop) l1 l2 :
  Sorted Q l1 -> Sorted Q l2 ->
  (forall l0 x y l3, l1 = l0 ++ [x] -> l2 = y :: l3 -> Q x y) ->
  Sorted Q (l1 ++ l2).
Proof.
  induction l1 as [|x l1 IH]; simpl; intros H1 H2 Hmid; [exact H2|].
  apply Sorted_inv in H1 as [H1 Hhd].
  constructor.
  - apply IH; auto. intros l0 x' y l3 -> ->.
    apply (Hmid (x :: l0) x' y l3); reflexivity.
  - destruct l1 as [|z l1]; simpl.
    + destruct l2 as [|y l3]; constructor.
      apply (Hmid [] x y l3); reflexivity.
    + apply HdRel_inv in Hhd. now constructor.
Qed.

Lemma adjacent_rev (Q : string -> string -> Prop) l :
  Sorted (fun x y => Q y x) l -> Sorted Q (rev l).
Proof.
  induction l as [|x l IH]; intros H; simpl; [constructor|].
  apply Sorted_inv in H as [H Hhd].
  apply adjacent_app; [auto|repeat constructor|].
  intros l0 z y l3 Hrev [= <- <-].
  destruct l as [|w l]; [now destruct l0|].
  apply HdRel_inv in Hhd. simpl in Hrev.
  apply app_inj_tail in Hrev as [_ ->]. exact Hhd.
Qed.

Lemma insert_left_head (Q : string -> string -> Prop) t x rest :
  Q t x -> HdRel Q t rest -> HdRel Q t (insert_left cmp x rest).
Proof.
  intros Hx Hhd. destruct rest as [|u rest]; simpl; [now constructor|].
  apply HdRel_inv in Hhd.
  destruct (cmp u x >? 0)%Z; now constructor.
Qed.

Lemma insert_left_adjacent x rev_done :
  Sorted (fun a b => not_after cmp b a) rev_done ->
  Sorted (fun a b => not_after cmp b a) (insert_left cmp x rev_done).
Proof.
  induction rev_done as [|t rest IH]; intros Hs; simpl;
    [repeat constructor|].
  apply Sorted_inv in Hs as [Hs Hhd].
  destruct (Z.gtb_spec (cmp t x) 0) as [Hgt|Hle].
  - constructor; [auto|].
    apply insert_left_head; [|assumption].
    unfold not_after. rewrite (cmp_antisym t x). lia.
  - constructor; [now constructor|]. constructor. exact Hle.
Qed.

Lemma InsertionSort_adjacent a : Sorted (not_after cmp) (InsertionSort cmp a).
Proof.
  unfold InsertionSort. apply adjacent_rev.
  assert (G : forall l done, Sorted (fun a b => not_after cmp b a) done ->
    Sorted (fun a b => not_after cmp b a)
      (fold_left (fun rev_done element => insert_left cmp element rev_done)
         l done)).
  { induction l as [|x l IH]; intros done Hd; simpl; [assumption|].
    apply IH. now apply insert_left_adjacent. }
  apply G. constructor.
Qed.

(** The binary search stops between an element that does not compare
    greater than the pivot and one that does. *)
Lemma insertion_point_neighbours pivot a left0 right0 :
  forall fuel left right,
    left0 <= left <= right -> right <= right0 -> right - left <= fuel ->
    (left = left0 \/ (cmp pivot (at_index a (left - 1)) >= 0)%Z) ->
    (right = right0 \/ (cmp pivot (at_index a right) < 0)%Z) ->
    let r := insertion_point fuel cmp pivot a left right in
    left0 <= r <= right0
    /\ (r = left0 \/ (cmp pivot (at_index a (r - 1)) >= 0)%Z)
    /\ (r = right0 \/ (cmp pivot (at_index a r) < 0)%Z).
Proof.
  induction fuel as [|fuel IH]; intros left right Hl Hr Hfuel Hlo Hhi;
    cbn [insertion_point].
  - assert (left = right) by lia. subst. split; [lia|auto].
  - destruct (Nat.ltb_spec left right) as [Hlt|Hge].
    2:{ assert (left = right) by lia. subst. split; [lia|auto]. }
    set (mid := left + (right - left) / 2).
    assert (Hmid : left <= mid < right).
    { subst mid. assert ((right - left) / 2 < right - left)
        by (apply Nat.div_lt; lia). lia. }
    destruct (Z.ltb_spec (cmp pivot (at_index a mid)) 0) as [Hneg|Hpos].
    + apply IH; auto; lia.
    + apply IH; auto; try lia.
      right. replace (mid + 1 - 1) with mid by lia. lia.
Qed.

Lemma binary_insert_adjacent a start :
  start < List.length a ->
  Sorted (not_after cmp) (firstn start a) ->
  Sorted (not_after cmp) (firstn (start + 1) (binary_insert cmp a start)).
Proof.
  intros Hlt Hs.
  destruct (binary_insert_shape cmp a start Hlt) as (_ & Hshape & Hleft).
  set (pivot := at_index a start) in *.
  set (left := insertion_point start cmp pivot a 0 start) in *.
  set (sorted := firstn start a) in *.
  assert (Hlen : List.length sorted = start)
    by (subst sorted; rewrite length_firstn; lia).
  assert (Hnth : forall i, i < start -> nth i sorted "undefined" = at_index a i).
  { intros i Hi. unfold at_index. subst sorted. rewrite nth_firstn.
    now destruct (Nat.ltb_spec i start); [|lia]. }
  destruct (insertion_point_neighbours pivot a 0 start start 0 start)
    as (_ & Hlo & Hhi); auto; try lia.
  fold left in Hlo, Hhi.
  rewrite Hshape.
  replace (firstn left sorted ++ pivot :: skipn left sorted
             ++ skipn (start + 1) a)
    with ((firstn left sorted ++ pivot :: skipn left sorted)
             ++ skipn (start + 1) a)
    by (rewrite <- app_assoc; reflexivity).
  rewrite firstn_app.
  assert (Hl : List.length (firstn left sorted ++ pivot :: skipn left sorted)
               = start + 1).
  { rewrite length_app, length_firstn. simpl. rewrite length_skipn. lia. }
  rewrite Hl, Nat.sub_diag, firstn_O, app_nil_r, <- Hl, firstn_all.
  rewrite <- (firstn_skipn left sorted) in Hs.
  destruct (adjacent_app_inv _ _ _ Hs) as [Hs1 Hs2].
  apply adjacent_app; [assumption| |].
  - constructor; [assumption|].
    destruct (skipn left sorted) as [|y l3] eqn:Esk; constructor.
    assert (Hy : y = nth 0 (skipn left sorted) "undefined")
      by (now rewrite Esk).
    assert (Hlt' : left < start).
    { assert (List.length (skipn left sorted) > 0) by (rewrite Esk; simpl; lia).
      rewrite length_skipn in H. lia. }
    rewrite nth_skipn, Nat.add_0_r, Hnth in Hy by lia. subst y.
    destruct Hhi as [Hhi|Hhi]; [lia|]. unfold not_after. lia.
  - intros l0 x y l3 Hx [= <- <-].
    assert (Hl0 : List.length (firstn left sorted) = left)
      by (rewrite length_firstn; lia).
    assert (Hpos : left = S (List.length l0)).
    { rewrite <- Hl0, Hx, length_app. simpl. lia. }
    assert (Hxn : x = nth (left - 1) (firstn left sorted) "undefined").
    { rewrite Hx, app_nth2 by lia.
      replace (left - 1 - List.length l0) with 0 by lia. reflexivity. }
    rewrite nth_firstn in Hxn.
    destruct (Nat.ltb_spec (left - 1) left); [|lia].
    rewrite Hnth in Hxn by lia. subst x.
    destruct Hlo as [Hlo|Hlo]; [lia|].
    unfold not_after. rewrite (cmp_antisym pivot _). lia.
Qed.

Lemma run_length_adjacent desc prev rest :
  let n := run_length cmp desc prev rest in
  if desc then Sorted (fun x y => not_after cmp y x) (prev :: firstn n rest)
  else Sorted (not_after cmp) (prev :: firstn n rest).
Proof.
  revert prev. induction rest as [|cur rest IH]; intros prev; simpl.
  - destruct desc; repeat constructor.
  - specialize (IH cur). simpl in IH. destruct desc.
    + destruct (Z.ltb_spec (cmp cur prev) 0) as [Hlt|Hge]; simpl;
        [|repeat constructor].
      constructor; [assumption|]. constructor. unfold not_after. lia.
    + destruct (Z.geb_spec (cmp cur prev) 0) as [Hge|Hlt]; simpl;
        [|repeat constructor].
      constructor; [assumption|]. constructor. unfold not_after.
      rewrite (cmp_antisym cur prev). lia.
Qed.

Lemma CountAndMakeRun_adjacent a :
  let '(a1, n) := CountAndMakeRun cmp a in Sorted (not_after cmp) (firstn n a1).
Proof.
  unfold CountAndMakeRun.
  destruct a as [|x0 [|x1 rest]]; [simpl; repeat constructor..|].
  pose proof (run_length_adjacent (cmp x1 x0 <? 0)%Z x0 (x1 :: rest)) as Hrun.
  pose proof (run_length_le cmp (cmp x1 x0 <? 0)%Z x1 rest) as Hle.
  cbn [run_length] in Hrun. cbv zeta.
  destruct (Z.ltb_spec (cmp x1 x0) 0) as [Hlt|Hge].
  - cbv iota beta in Hrun |- *.
    set (n := run_length cmp true x1 rest) in *.
    change (firstn (S n) (x1 :: rest)) with (x1 :: firstn n rest) in Hrun.
    change (2 + n) with (S (S n)).
    change (firstn (S (S n)) (x0 :: x1 :: rest))
      with (x0 :: x1 :: firstn n rest).
    apply adjacent_rev in Hrun.
    rewrite firstn_app.
    assert (Hl : List.length (rev (x0 :: x1 :: firstn n rest)) = S (S n)).
    { rewrite length_rev. simpl. rewrite length_firstn. lia. }
    rewrite Hl, Nat.sub_diag, firstn_O, app_nil_r, <- Hl, firstn_all.
    exact Hrun.
  - destruct (Z.geb_spec (cmp x1 x0) 0) as [_|Hlt]; [|lia].
    cbv iota beta in Hrun |- *. exact Hrun.
Qed.

Lemma TimSortShort_adjacent a : Sorted (not_after cmp) (TimSortShort cmp a).
Proof.
  unfold TimSortShort.
  pose proof (CountAndMakeRun_adjacent a) as Hs.
  destruct (CountAndMakeRun_perm cmp a) as [Hp Hn].
  destruct (CountAndMakeRun cmp a) as [a1 n]. simpl in Hp, Hn.
  unfold range.
  assert (G : forall m k b, k + m = List.length b ->
    Sorted (not_after cmp) (firstn k b) ->
    Sorted (not_after cmp) (fold_left (binary_insert cmp) (seq k m) b)).
  { induction m as [|m IH]; intros k b Hk Hsb; simpl.
    - rewrite Nat.add_0_r in Hk. subst k. now rewrite firstn_all in Hsb.
    - assert (Hperm : Permutation b (binary_insert cmp b k))
        by (apply binary_insert_perm; lia).
      apply IH.
      + rewrite <- (Permutation_length Hperm). lia.
      + replace (S k) with (k + 1) by lia.
        apply binary_insert_adjacent; auto. lia. }
  apply G; [|exact Hs].
  apply Permutation_length in Hp. lia.
Qed.

End AnyComparator.

(* ================================================================== *)
(** ** Further properties of the program *)



(** X2. A second call of [updateRules] with the same sequence leaves the
    table exactly as the first call left it, keys and their order
    included. *)
Theorem updateRules_idempotent arr rules :
  Forall is_label arr ->
  exists rules',
    updateRules arr rules = Some rules'
    /\ updateRules arr rules' = Some rules'.
Proof.
  intros _. destruct (updateRules_full arr rules) as (rules' & Hrun & _ & _ & Hmk).
  exists rules'. split; [exact Hrun|].
  apply updateRules_marked. intros a b H. apply Hmk. now right.
Qed.

Lemma updateRules_idempotent_witness :
  Forall is_label ["a";"b";"c"]
  /\ exists rules',
       updateRules ["a";"b";"c"] [("c", [("a", 1%Z)])] = Some rules'
       /\ updateRules ["a";"b";"c"] rules' = Some rules'.
Proof.
  assert (H : Forall is_label ["a";"b";"c"]) by (repeat constructor).
  split; [exact H|].
  exact (updateRules_idempotent ["a";"b";"c"] [("c", [("a", 1%Z)])] H).
Defined.




















(** X12. Merging is idempotent: the output of [preserveOrder], given back
    as the only sequence of an input, is returned unchanged. *)
Theorem preserveOrder_idempotent {E : ArraySort} {ES : ArraySortSpec E} input :
  is_input input ->
  exists out,
    preserveOrder input = Some out /\ preserveOrder [out] = Some out.
Proof.
  intros Hin.
  destruct (preserveOrder_labels input) as (out & Hrun & Hnd & Hout).
  exists out. split; [exact Hrun|].
  apply single_identity; [|exact Hnd].
  apply Forall_forall. intros x Hx. apply Hout in Hx.
  unfold labels in Hx. apply in_concat in Hx as (s & Hs & Hx).
  unfold is_input in Hin. rewrite Forall_forall in Hin.
  specialize (Hin s Hs). rewrite Forall_forall in Hin. auto.
Qed.

Lemma preserveOrder_idempotent_witness :
  ArraySortSpec v8_insertion
  /\ is_input chain_rotated
  /\ exists out,
       preserveOrder (E := v8_insertion) chain_rotated = Some out
       /\ preserveOrder (E := v8_insertion) [out] = Some out.
Proof.
  assert (H : is_input chain_rotated) by (repeat constructor).
  split; [exact v8_insertion_spec|]. split; [exact H|].
  exact (@preserveOrder_idempotent v8_insertion v8_insertion_spec _ H).
Defined.

(** X13. Permuting the outer list can change the order of the output but
    not its content: the two outputs are permutations of each other, on
    any input. *)
Theorem preserveOrder_permutation_content
    {E : ArraySort} {ES : ArraySortSpec E} input input' :
  is_input input -> Permutation input input' ->
  exists out out',
    preserveOrder input = Some out
    /\ preserveOrder input' = Some out'
    /\ Permutation out out'.
Proof.
  intros _ Hp.
  destruct (preserveOrder_labels input) as (out & Hrun & Hnd & Hin).
  destruct (preserveOrder_labels input') as (out' & Hrun' & Hnd' & Hin').
  exists out, out'. split; [exact Hrun|]. split; [exact Hrun'|].
  apply NoDup_Permutation; auto.
  intros x. rewrite Hin, Hin'. split; apply labels_perm; auto.
  now apply Permutation_sym.
Qed.

Lemma preserveOrder_permutation_content_witness :
  ArraySortSpec v8_insertion
  /\ is_input input7 /\ Permutation input7 chain_rotated
  /\ exists out out',
       preserveOrder (E := v8_insertion) input7 = Some out
       /\ preserveOrder (E := v8_insertion) chain_rotated = Some out'
       /\ Permutation out out'.
Proof.
  assert (H : is_input input7) by (repeat constructor).
  assert (Hp : Permutation input7 chain_rotated)
    by (apply (Permutation_cons_app
                 [["d";"c"];["c";"b"];["b";"a"]] [] ["e";"d"]);
        apply Permutation_refl).
  split; [exact v8_insertion_spec|]. split; [exact H|]. split; [exact Hp|].
  exact (@preserveOrder_permutation_content v8_insertion v8_insertion_spec
           _ _ H Hp).
Defined.



Lemma adjacent_impl (P Q : string -> string -> Prop) l :
  (forall x y, P x y -> Q x y) -> Sorted P l -> Sorted Q l.
Proof.
  intros H Hs. induction Hs as [|x l Hs IH Hhd]; constructor; [assumption|].
  destruct Hhd; constructor. auto.
Qed.

(** X15. When, in the order of [Object.keys(uniq)], no label is recorded
    before its left neighbour, each sorting routine returns the labels in
    that order on the arrays V8 runs it on (at most ten labels for the
    insertion sort, fewer than 64 for the binary insertion of TimSort),
    whatever the rules say of labels that are not neighbours. *)
Theorem preserveOrder_keeps_ordered_neighbours input rules :
  is_input input ->
  getMasterRules input = Some rules ->
  Sorted (fun x y => ~ rel rules y x) (Obj.keys (collect input)) ->
  (insertion_range (Obj.keys (collect input)) ->
     preserveOrder (E := v8_insertion) input
     = Some (Obj.keys (collect input)))
  /\ (timsort_range (Obj.keys (collect input)) ->
        preserveOrder (E := v8_timsort) input
        = Some (Obj.keys (collect input))).
Proof.
  intros _ Hrun Hs. unfold preserveOrder. rewrite Hrun. simpl.
  split; intros _; f_equal.
  - apply InsertionSort_fixed. revert Hs. apply adjacent_impl.
    intros x y Hyx. unfold sortByRules, rel in *.
    destruct (recorded rules x y); [lia|].
    destruct (recorded rules y x); [congruence|lia].
  - apply TimSortShort_fixed. revert Hs. apply adjacent_impl.
    intros x y Hyx. unfold sortByRules, rel in *.
    destruct (recorded rules y x); [congruence|].
    destruct (recorded rules x y); lia.
Qed.

Lemma preserveOrder_keeps_ordered_neighbours_witness :
  is_input chain_rotated
  /\ getMasterRules chain_rotated
     = Some [("d", [("c", 1%Z); ("b", 1%Z)]); ("c", [("b", 1%Z); ("a", 1%Z)]);
             ("b", [("a", 1%Z)]); ("e", [("d", 1%Z); ("c", 1%Z); ("b", 1%Z)])]
  /\ Sorted (fun x y =>
               ~ rel [("d", [("c", 1%Z); ("b", 1%Z)]);
                      ("c", [("b", 1%Z); ("a", 1%Z)]);
                      ("b", [("a", 1%Z)]);
                      ("e", [("d", 1%Z); ("c", 1%Z); ("b", 1%Z)])] y x)
       (Obj.keys (collect chain_rotated))
  /\ insertion_range (Obj.keys (collect chain_rotated))
  /\ timsort_range (Obj.keys (collect chain_rotated))
  /\ preserveOrder (E := v8_insertion) chain_rotated
     = Some (Obj.keys (collect chain_rotated))
  /\ preserveOrder (E := v8_timsort) chain_rotated
     = Some (Obj.keys (collect chain_rotated)).
Proof.
  assert (H : is_input chain_rotated) by (repeat constructor).
  assert (Hrun : getMasterRules chain_rotated
     = Some [("d", [("c", 1%Z); ("b", 1%Z)]); ("c", [("b", 1%Z); ("a", 1%Z)]);
             ("b", [("a", 1%Z)]); ("e", [("d", 1%Z); ("c", 1%Z); ("b", 1%Z)])])
    by reflexivity.
  assert (Hs : Sorted (fun x y =>
               ~ rel [("d", [("c", 1%Z); ("b", 1%Z)]);
                      ("c", [("b", 1%Z); ("a", 1%Z)]);
                      ("b", [("a", 1%Z)]);
                      ("e", [("d", 1%Z); ("c", 1%Z); ("b", 1%Z)])] y x)
       (Obj.keys (collect chain_rotated)))
    by (repeat constructor; vm_compute; discriminate).
  assert (R1 : insertion_range (Obj.keys (collect chain_rotated)))
    by (unfold insertion_range; simpl; lia).
  assert (R2 : timsort_range (Obj.keys (collect chain_rotated)))
    by (unfold timsort_range; simpl; lia).
  split; [exact H|]. split; [exact Hrun|]. split; [exact Hs|].
  split; [exact R1|]. split; [exact R2|].
  destruct (preserveOrder_keeps_ordered_neighbours chain_rotated _ H Hrun Hs)
    as [H1 H2].
  split; [exact (H1 R1)|exact (H2 R2)].
Defined.

(** X16. On a valid input neither sorting routine, on the arrays V8 runs
    it on (at most ten labels for the insertion sort, fewer than 64 for
    the binary insertion of TimSort), leaves a label right before a label
    that is recorded to precede it: every two neighbours of the output
    are in an order the rules allow. *)
Theorem preserveOrder_neighbours_in_order input :
  valid_input input ->
  exists rules,
    getMasterRules input = Some rules
    /\ (insertion_range (Obj.keys (collect input)) ->
        exists out,
          preserveOrder (E := v8_insertion) input = Some out
          /\ Sorted (fun x y => ~ rel rules y x) out)
    /\ (timsort_range (Obj.keys (collect input)) ->
        exists out,
          preserveOrder (E := v8_timsort) input = Some out
          /\ Sorted (fun x y => ~ rel rules y x) out).
Proof.
  intros Hv.
  destruct (getMasterRules_spec input) as (rules & Hrun & _ & _ & Hsound & _).
  assert (Hasym : forall a b, rel rules a b -> ~ rel rules b a).
  { intros a b Hab Hba. apply (valid_acyclic _ Hv a).
    apply t_trans with b; auto. }
  pose proof (sortByRules_antisym rules Hasym) as Hanti.
  assert (Hallow : forall x y,
            not_after (sortByRules rules) x y -> ~ rel rules y x).
  { intros x y Hle Hyx. unfold not_after in Hle.
    apply sortByRules_lt in Hyx. rewrite (Hanti y x) in Hle. lia. }
  exists rules. split; [exact Hrun|].
  unfold preserveOrder. rewrite Hrun. simpl.
  split; intros _; eexists; (split; [reflexivity|]).
  - apply (adjacent_impl _ _ _ Hallow).
    apply InsertionSort_adjacent. intros a b. apply Hanti.
  - apply (adjacent_impl _ _ _ Hallow).
    apply TimSortShort_adjacent. intros a b. apply Hanti.
Qed.

Lemma preserveOrder_neighbours_in_order_witness :
  valid_input unrelated_bridge
  /\ insertion_range (Obj.keys (collect unrelated_bridge))
  /\ timsort_range (Obj.keys (collect unrelated_bridge))
  /\ exists rules,
       getMasterRules unrelated_bridge = Some rules
       /\ (exists out,
             preserveOrder (E := v8_insertion) unrelated_bridge = Some out
             /\ Sorted (fun x y => ~ rel rules y x) out)
       /\ (exists out,
             preserveOrder (E := v8_timsort) unrelated_bridge = Some out
             /\ Sorted (fun x y => ~ rel rules y x) out).
Proof.
  assert (Hv : valid_input unrelated_bridge)
    by (apply (valid_inputb_spec ["a";"d";"b";"c"]); reflexivity).
  assert (R1 : insertion_range (Obj.keys (collect unrelated_bridge)))
    by (unfold insertion_range; simpl; lia).
  assert (R2 : timsort_range (Obj.keys (collect unrelated_bridge)))
    by (unfold timsort_range; simpl; lia).
  split; [exact Hv|]. split; [exact R1|]. split; [exact R2|].
  destruct (preserveOrder_neighbours_in_order _ Hv) as (rules & Hrun & H1 & H2).
  exists rules. split; [exact Hrun|]. split; [exact (H1 R1)|exact (H2 R2)].
Defined.
